(** * Package-delivery solution validator (validator.py)

    A shallow embedding of the replay engine of [validator.py]: the world
    model built by [initialize_tracking], the four action handlers, the
    driver loop with its [try]/[except], the score report and [main].

    Python dictionaries are finite maps ([gmap]), the delivered set is a
    [gset], lists are lists.  Python integers are unbounded, so they are [Z].
    The handlers mutate [self] and may raise; they live in a state monad with
    exceptions whose [Raise] outcome keeps the state reached at the raise
    point, because a mutation made before an exception is not rolled back. *)

From Stdlib Require Import ZArith.
From stdpp Require Import gmap strings list fin_maps sorting.

Open Scope string_scope.
Open Scope Z_scope.

(** ** Documents *)

(** A grid position, the JSON array [[x, y]]. *)
Definition coord : Type := Z * Z.

(** An element of [input_data["map"]["locations"]].  ["capacity"] is present
    only for package points. *)
Record location := Location {
  loc_id : string;
  loc_type : string;
  loc_coordinates : coord;
  loc_capacity : option Z
}.

(** An element of [input_data["couriers"]]. *)
Record courier := Courier {
  courier_id : string;
  courier_start_location : string;
  courier_capacity : Z
}.

(** An element of [input_data["packages"]]. *)
Record package := Package {
  pkg_id : string;
  pkg_origin : string;
  pkg_destination : string;
  pkg_arrival_time : Z
}.

(** The problem file. *)
Record problem := Problem {
  map_dimensions : Z * Z;
  map_locations : list location;
  in_couriers : list courier;
  in_packages : list package
}.

(** One record of the action log.  Every key may be absent: [a_time] is
    [action_data["time"]], [a_courier] is [action_data["courier"]], and so
    on; [None] is a missing key. *)
Record action := Action {
  a_time : option Z;
  a_courier : option string;
  a_action : option string;
  a_location : option string;
  a_from : option coord;
  a_to : option coord;
  a_packages : option (list string)
}.

(** What [open] + [json.load] gives for one path: the document, or the text of
    the exception. *)
Inductive file (A : Type) :=
  | Unreadable (reason : string)
  | Loaded (doc : A).
Arguments Unreadable {A} reason.
Arguments Loaded {A} doc.

(** ** Run-time state *)

(** The values written to [package_status[id]["status"]]. *)
Inductive status := at_warehouse | with_courier | at_package_point | delivered.

#[global] Instance status_eq_dec : EqDecision status.
Proof. solve_decision. Defined.

(** An entry of [self.package_status]. *)
Record pkg_state := PkgState {
  ps_status : status;
  ps_location : string;
  ps_arrival_time : Z;
  ps_delivery_time : option Z
}.

(** Exceptions the replay can raise. *)
Inductive exn :=
  | KeyError (key : string)
  | ValueError
  | TypeError.

(** The entries of [self.errors].  Each constructor stands for one f-string
    of the source and carries the values interpolated into it. *)
Inductive message :=
  | ErrorLoadingFiles (reason : string)
  | InvalidCourierID (cid : string)
  | InvalidLocationWait (lid : string)
  | InvalidActionType (ty : string)
  | MissingRequiredField (key : string)
  | ErrorProcessingAction (e : exn)
  | UndeliveredPackages (ids : list string)
  | InvalidLocationID (lid : string)
  | CourierNotAtLocation (cid lid : string)
  | PickUpNonWarehouse (lid : string)
  | ExceedingCourierCapacity (cid : string)
  | InvalidPackageID (pid : string)
  | PackageOriginIsNot (pid lid : string)
  | PackageNotAtWarehouse (pid : string)
  | PackageNotArrivedYet (pid : string) (time : Z)
  | DropOffNonPackagePoint (lid : string)
  | ExceedingPackagePointCapacity (lid : string)
  | CourierDoesNotHave (cid pid : string)
  | DeliverNonDestination (lid : string)
  | PackageDestinationIsNot (pid lid : string)
  | CourierNotAtPosition (cid : string) (pos : coord)
  | InvalidMove (from_pos to_pos : coord)
  | MovePackagesMismatch (cid : string).

(** The fields of a [Validator] object. *)
Record state := State {
  input_data : option problem;
  output_data : option (list action);
  locations : gmap string location;
  couriers : gmap string courier;
  packages : gmap string package;
  errors : list message;
  warnings : list message;
  courier_positions : gmap string (option coord);
  courier_packages : gmap string (list string);
  package_status : gmap string pkg_state;
  package_point_contents : gmap string (list string);
  delivered_packages : gset string;
  completion_time : Z;
  undelivered_penalty : Z;
  invalid_action_penalty : Z
}.

(** [Validator.__init__]. *)
Definition __init__ : state :=
  {| input_data := None; output_data := None;
     locations := ∅; couriers := ∅; packages := ∅;
     errors := []; warnings := [];
     courier_positions := ∅; courier_packages := ∅; package_status := ∅;
     package_point_contents := ∅; delivered_packages := ∅;
     completion_time := 0; undelivered_penalty := 0;
     invalid_action_penalty := 0 |}.

(** ** The monad of methods *)

Inductive res (A : Type) :=
  | Return (a : A) (self : state)
  | Raise (e : exn) (self : state).
Arguments Return {A} a self.
Arguments Raise {A} e self.

Definition M (A : Type) : Type := state → res A.

#[global] Instance M_ret : MRet M := λ A a self, Return a self.
#[global] Instance M_bind : MBind M := λ A B f m self,
  match m self with
  | Return a self' => f a self'
  | Raise e self' => Raise e self'
  end.

Definition raise {A} (e : exn) : M A := λ self, Raise e self.
Definition get : M state := λ self, Return self self.
Definition modify (f : state → state) : M unit := λ self, Return tt (f self).
Definition pass : M unit := mret tt.

(** [d[k]] on a dictionary, and [action_data[k]] on a record. *)
Definition subscript {A} (d : option A) (k : string) : M A :=
  match d with
  | Some v => mret v
  | None => raise (KeyError k)
  end.

(** [for x in xs: body(x)], where [continue] is the end of [body]. *)
Fixpoint for_each {A} (xs : list A) (body : A → M unit) : M unit :=
  match xs with
  | [] => pass
  | x :: rest => body x;; for_each rest body
  end.

(** ** State updates *)

(** Assignment to one attribute of [self]. *)

Definition set_input_data (v : option problem) (s : state) : state :=
  {| input_data := v;
     output_data := output_data s;
     locations := locations s;
     couriers := couriers s;
     packages := packages s;
     errors := errors s;
     warnings := warnings s;
     courier_positions := courier_positions s;
     courier_packages := courier_packages s;
     package_status := package_status s;
     package_point_contents := package_point_contents s;
     delivered_packages := delivered_packages s;
     completion_time := completion_time s;
     undelivered_penalty := undelivered_penalty s;
     invalid_action_penalty := invalid_action_penalty s |}.

Definition set_output_data (v : option (list action)) (s : state) : state :=
  {| input_data := input_data s;
     output_data := v;
     locations := locations s;
     couriers := couriers s;
     packages := packages s;
     errors := errors s;
     warnings := warnings s;
     courier_positions := courier_positions s;
     courier_packages := courier_packages s;
     package_status := package_status s;
     package_point_contents := package_point_contents s;
     delivered_packages := delivered_packages s;
     completion_time := completion_time s;
     undelivered_penalty := undelivered_penalty s;
     invalid_action_penalty := invalid_action_penalty s |}.

Definition set_locations (v : gmap string location) (s : state) : state :=
  {| input_data := input_data s;
     output_data := output_data s;
     locations := v;
     couriers := couriers s;
     packages := packages s;
     errors := errors s;
     warnings := warnings s;
     courier_positions := courier_positions s;
     courier_packages := courier_packages s;
     package_status := package_status s;
     package_point_contents := package_point_contents s;
     delivered_packages := delivered_packages s;
     completion_time := completion_time s;
     undelivered_penalty := undelivered_penalty s;
     invalid_action_penalty := invalid_action_penalty s |}.

Definition set_couriers (v : gmap string courier) (s : state) : state :=
  {| input_data := input_data s;
     output_data := output_data s;
     locations := locations s;
     couriers := v;
     packages := packages s;
     errors := errors s;
     warnings := warnings s;
     courier_positions := courier_positions s;
     courier_packages := courier_packages s;
     package_status := package_status s;
     package_point_contents := package_point_contents s;
     delivered_packages := delivered_packages s;
     completion_time := completion_time s;
     undelivered_penalty := undelivered_penalty s;
     invalid_action_penalty := invalid_action_penalty s |}.

Definition set_packages (v : gmap string package) (s : state) : state :=
  {| input_data := input_data s;
     output_data := output_data s;
     locations := locations s;
     couriers := couriers s;
     packages := v;
     errors := errors s;
     warnings := warnings s;
     courier_positions := courier_positions s;
     courier_packages := courier_packages s;
     package_status := package_status s;
     package_point_contents := package_point_contents s;
     delivered_packages := delivered_packages s;
     completion_time := completion_time s;
     undelivered_penalty := undelivered_penalty s;
     invalid_action_penalty := invalid_action_penalty s |}.

Definition set_errors (v : list message) (s : state) : state :=
  {| input_data := input_data s;
     output_data := output_data s;
     locations := locations s;
     couriers := couriers s;
     packages := packages s;
     errors := v;
     warnings := warnings s;
     courier_positions := courier_positions s;
     courier_packages := courier_packages s;
     package_status := package_status s;
     package_point_contents := package_point_contents s;
     delivered_packages := delivered_packages s;
     completion_time := completion_time s;
     undelivered_penalty := undelivered_penalty s;
     invalid_action_penalty := invalid_action_penalty s |}.

Definition set_courier_positions (v : gmap string (option coord)) (s : state) : state :=
  {| input_data := input_data s;
     output_data := output_data s;
     locations := locations s;
     couriers := couriers s;
     packages := packages s;
     errors := errors s;
     warnings := warnings s;
     courier_positions := v;
     courier_packages := courier_packages s;
     package_status := package_status s;
     package_point_contents := package_point_contents s;
     delivered_packages := delivered_packages s;
     completion_time := completion_time s;
     undelivered_penalty := undelivered_penalty s;
     invalid_action_penalty := invalid_action_penalty s |}.

Definition set_courier_packages (v : gmap string (list string)) (s : state) : state :=
  {| input_data := input_data s;
     output_data := output_data s;
     locations := locations s;
     couriers := couriers s;
     packages := packages s;
     errors := errors s;
     warnings := warnings s;
     courier_positions := courier_positions s;
     courier_packages := v;
     package_status := package_status s;
     package_point_contents := package_point_contents s;
     delivered_packages := delivered_packages s;
     completion_time := completion_time s;
     undelivered_penalty := undelivered_penalty s;
     invalid_action_penalty := invalid_action_penalty s |}.

Definition set_package_status (v : gmap string pkg_state) (s : state) : state :=
  {| input_data := input_data s;
     output_data := output_data s;
     locations := locations s;
     couriers := couriers s;
     packages := packages s;
     errors := errors s;
     warnings := warnings s;
     courier_positions := courier_positions s;
     courier_packages := courier_packages s;
     package_status := v;
     package_point_contents := package_point_contents s;
     delivered_packages := delivered_packages s;
     completion_time := completion_time s;
     undelivered_penalty := undelivered_penalty s;
     invalid_action_penalty := invalid_action_penalty s |}.

Definition set_package_point_contents (v : gmap string (list string)) (s : state) : state :=
  {| input_data := input_data s;
     output_data := output_data s;
     locations := locations s;
     couriers := couriers s;
     packages := packages s;
     errors := errors s;
     warnings := warnings s;
     courier_positions := courier_positions s;
     courier_packages := courier_packages s;
     package_status := package_status s;
     package_point_contents := v;
     delivered_packages := delivered_packages s;
     completion_time := completion_time s;
     undelivered_penalty := undelivered_penalty s;
     invalid_action_penalty := invalid_action_penalty s |}.

Definition set_delivered_packages (v : gset string) (s : state) : state :=
  {| input_data := input_data s;
     output_data := output_data s;
     locations := locations s;
     couriers := couriers s;
     packages := packages s;
     errors := errors s;
     warnings := warnings s;
     courier_positions := courier_positions s;
     courier_packages := courier_packages s;
     package_status := package_status s;
     package_point_contents := package_point_contents s;
     delivered_packages := v;
     completion_time := completion_time s;
     undelivered_penalty := undelivered_penalty s;
     invalid_action_penalty := invalid_action_penalty s |}.

Definition set_completion_time (v : Z) (s : state) : state :=
  {| input_data := input_data s;
     output_data := output_data s;
     locations := locations s;
     couriers := couriers s;
     packages := packages s;
     errors := errors s;
     warnings := warnings s;
     courier_positions := courier_positions s;
     courier_packages := courier_packages s;
     package_status := package_status s;
     package_point_contents := package_point_contents s;
     delivered_packages := delivered_packages s;
     completion_time := v;
     undelivered_penalty := undelivered_penalty s;
     invalid_action_penalty := invalid_action_penalty s |}.

Definition set_undelivered_penalty (v : Z) (s : state) : state :=
  {| input_data := input_data s;
     output_data := output_data s;
     locations := locations s;
     couriers := couriers s;
     packages := packages s;
     errors := errors s;
     warnings := warnings s;
     courier_positions := courier_positions s;
     courier_packages := courier_packages s;
     package_status := package_status s;
     package_point_contents := package_point_contents s;
     delivered_packages := delivered_packages s;
     completion_time := completion_time s;
     undelivered_penalty := v;
     invalid_action_penalty := invalid_action_penalty s |}.

Definition set_invalid_action_penalty (v : Z) (s : state) : state :=
  {| input_data := input_data s;
     output_data := output_data s;
     locations := locations s;
     couriers := couriers s;
     packages := packages s;
     errors := errors s;
     warnings := warnings s;
     courier_positions := courier_positions s;
     courier_packages := courier_packages s;
     package_status := package_status s;
     package_point_contents := package_point_contents s;
     delivered_packages := delivered_packages s;
     completion_time := completion_time s;
     undelivered_penalty := undelivered_penalty s;
     invalid_action_penalty := v |}.

(** [self.errors.append(msg)] *)
Definition errors_append (msg : message) : M unit :=
  modify (λ s, set_errors (errors s ++ [msg])%list s).

(** [self.invalid_action_penalty += 10] *)
Definition penalize : M unit :=
  modify (λ s, set_invalid_action_penalty (invalid_action_penalty s + 10) s).

(** The two statements that open every rejecting branch. *)
Definition reject (msg : message) : M unit :=
  errors_append msg;; penalize.

(** ** World model *)

(** The scan of [_get_location_coordinates] over
    [input_data["map"]["locations"]]: the first location with the id. *)
Fixpoint find_coordinates (locs : list location) (location_id : string) : option coord :=
  match locs with
  | [] => None
  | loc :: rest =>
      if decide (loc_id loc = location_id) then Some (loc_coordinates loc)
      else find_coordinates rest location_id
  end.

(** [_get_location_coordinates]; [None] is Python's [None].  Subscripting
    [self.input_data] before it is loaded raises [TypeError]. *)
Definition _get_location_coordinates (location_id : string) : M (option coord) :=
  self ← get;
  match input_data self with
  | Some data => mret (find_coordinates (map_locations data) location_id)
  | None => raise TypeError
  end.

(** [_is_valid_move]: one cell horizontally, vertically or diagonally. *)
Definition _is_valid_move (from_pos to_pos : coord) : bool :=
  let dx := Z.abs (to_pos.1 - from_pos.1) in
  let dy := Z.abs (to_pos.2 - from_pos.2) in
  (dx <=? 1) && (dy <=? 1) && ((dx >? 0) || (dy >? 0)).

(** [load_data]: both files are read inside one [try]; the output file is
    not opened when the input file fails. *)
Definition load_data (input_file : file problem) (output_file : file (list action)) : M bool :=
  match input_file with
  | Unreadable reason => errors_append (ErrorLoadingFiles reason);; mret false
  | Loaded input =>
      modify (set_input_data (Some input));;
      match output_file with
      | Unreadable reason => errors_append (ErrorLoadingFiles reason);; mret false
      | Loaded output => modify (set_output_data (Some output));; mret true
      end
  end.

(** [initialize_tracking]. *)
Definition initialize_tracking : M unit :=
  self ← get;
  data ← match input_data self with Some d => mret d | None => raise TypeError end;
  for_each (map_locations data) (λ location,
    modify (λ s, set_locations (<[loc_id location := location]> (locations s)) s);;
    if decide (loc_type location = "package_point")
    then modify (λ s, set_package_point_contents
                        (<[loc_id location := []]> (package_point_contents s)) s)
    else pass);;
  for_each (in_couriers data) (λ courier,
    let courier_id := courier_id courier in
    modify (λ s, set_couriers (<[courier_id := courier]> (couriers s)) s);;
    let start_loc := courier_start_location courier in
    start_coords ← _get_location_coordinates start_loc;
    modify (λ s, set_courier_positions
                   (<[courier_id := start_coords]> (courier_positions s)) s);;
    modify (λ s, set_courier_packages (<[courier_id := []]> (courier_packages s)) s));;
  for_each (in_packages data) (λ package,
    let package_id := pkg_id package in
    modify (λ s, set_packages (<[package_id := package]> (packages s)) s);;
    modify (λ s, set_package_status
                   (<[package_id := {| ps_status := at_warehouse;
                                       ps_location := pkg_origin package;
                                       ps_arrival_time := pkg_arrival_time package;
                                       ps_delivery_time := None |}]>
                      (package_status s)) s)).

(** ** Action handlers *)

(** [action_data.get("packages", [])] *)
Definition get_packages (action_data : action) : list string :=
  default [] (a_packages action_data).

(** The list object [self.courier_packages[courier_id]].  The handlers bind
    it to [current_packages] once and then mutate it through
    [self.courier_packages]; both names denote this one list, so every
    membership test reads it afresh. *)
Definition carried (courier_id : string) (s : state) : list string :=
  default [] (courier_packages s !! courier_id).

(** [lst.remove(x)]: drops the first occurrence, [ValueError] when absent. *)
Fixpoint list_remove (x : string) (lst : list string) : option (list string) :=
  match lst with
  | [] => None
  | y :: rest =>
      if decide (y = x) then Some rest
      else cons y <$> list_remove x rest
  end.

(** [self.courier_packages[courier_id].append(package_id)] *)
Definition courier_append (courier_id package_id : string) : M unit :=
  self ← get;
  lst ← subscript (courier_packages self !! courier_id) courier_id;
  modify (set_courier_packages (<[courier_id := (lst ++ [package_id])%list]> (courier_packages self))).

(** [self.courier_packages[courier_id].remove(package_id)] *)
Definition courier_remove (courier_id package_id : string) : M unit :=
  self ← get;
  lst ← subscript (courier_packages self !! courier_id) courier_id;
  match list_remove package_id lst with
  | Some lst' =>
      modify (set_courier_packages (<[courier_id := lst']> (courier_packages self)))
  | None => raise ValueError
  end.

(** [self.package_status[package_id][...] = ...] for the fields given by [f]. *)
Definition update_status (package_id : string) (f : pkg_state → pkg_state) : M unit :=
  self ← get;
  entry ← subscript (package_status self !! package_id) package_id;
  modify (set_package_status (<[package_id := f entry]> (package_status self))).

Definition set_status_location (st : status) (loc : string) (e : pkg_state) : pkg_state :=
  {| ps_status := st; ps_location := loc;
     ps_arrival_time := ps_arrival_time e; ps_delivery_time := ps_delivery_time e |}.

Definition set_delivery_time (t : Z) (e : pkg_state) : pkg_state :=
  {| ps_status := ps_status e; ps_location := ps_location e;
     ps_arrival_time := ps_arrival_time e; ps_delivery_time := Some t |}.

(** The body of the [for package_id in packages] loop of [_process_pickup]. *)
Definition pickup_package (courier_id location_id : string) (time : Z)
    (package_id : string) : M unit :=
  self ← get;
  match packages self !! package_id with
  | None => reject (InvalidPackageID package_id)
  | Some package =>
      package_status ← subscript (package_status self !! package_id) package_id;
      if decide (pkg_origin package ≠ location_id)
      then reject (PackageOriginIsNot package_id location_id)
      else if decide (ps_status package_status ≠ at_warehouse)
      then reject (PackageNotAtWarehouse package_id)
      else if time <? pkg_arrival_time package
      then reject (PackageNotArrivedYet package_id time)
      else
        update_status package_id (set_status_location with_courier courier_id);;
        courier_append courier_id package_id
  end.

(** [_process_pickup] *)
Definition _process_pickup (action_data : action) (time : Z) : M unit :=
  courier_id ← subscript (a_courier action_data) "courier";
  location_id ← subscript (a_location action_data) "location";
  let packages := get_packages action_data in
  self ← get;
  courier_pos ← subscript (courier_positions self !! courier_id) courier_id;
  location_pos ← _get_location_coordinates location_id;
  match location_pos with
  | None => reject (InvalidLocationID location_id)
  | Some _ =>
      if decide (courier_pos ≠ location_pos)
      then reject (CourierNotAtLocation courier_id location_id)
      else
        location ← subscript (locations self !! location_id) location_id;
        if decide (loc_type location ≠ "warehouse")
        then reject (PickUpNonWarehouse location_id)
        else
          courier ← subscript (couriers self !! courier_id) courier_id;
          current_packages ← subscript (courier_packages self !! courier_id) courier_id;
          if Z.of_nat (length current_packages) + Z.of_nat (length packages)
               >? courier_capacity courier
          then reject (ExceedingCourierCapacity courier_id)
          else for_each packages (pickup_package courier_id location_id time)
  end.

(** [self.package_point_contents[location_id].append(package_id)] *)
Definition package_point_append (location_id package_id : string) : M unit :=
  self ← get;
  lst ← subscript (package_point_contents self !! location_id) location_id;
  modify (set_package_point_contents
            (<[location_id := (lst ++ [package_id])%list]> (package_point_contents self))).

(** The body of the loop of [_process_dropoff]. *)
Definition dropoff_package (courier_id location_id : string) (package_id : string) : M unit :=
  self ← get;
  if decide (package_id ∉ carried courier_id self)
  then reject (CourierDoesNotHave courier_id package_id)
  else
    update_status package_id (set_status_location at_package_point location_id);;
    courier_remove courier_id package_id;;
    package_point_append location_id package_id.

(** [_process_dropoff] *)
Definition _process_dropoff (action_data : action) (time : Z) : M unit :=
  courier_id ← subscript (a_courier action_data) "courier";
  location_id ← subscript (a_location action_data) "location";
  let packages := get_packages action_data in
  self ← get;
  courier_pos ← subscript (courier_positions self !! courier_id) courier_id;
  location_pos ← _get_location_coordinates location_id;
  match location_pos with
  | None => reject (InvalidLocationID location_id)
  | Some _ =>
      if decide (courier_pos ≠ location_pos)
      then reject (CourierNotAtLocation courier_id location_id)
      else
        location ← subscript (locations self !! location_id) location_id;
        if decide (loc_type location ≠ "package_point")
        then reject (DropOffNonPackagePoint location_id)
        else
          current_pp_packages ←
            subscript (package_point_contents self !! location_id) location_id;
          capacity ← subscript (loc_capacity location) "capacity";
          if Z.of_nat (length current_pp_packages) + Z.of_nat (length packages)
               >? capacity
          then reject (ExceedingPackagePointCapacity location_id)
          else
            current_packages ← subscript (courier_packages self !! courier_id) courier_id;
            for_each packages (dropoff_package courier_id location_id)
  end.

(** The body of the loop of [_process_deliver]. *)
Definition deliver_package (courier_id location_id : string) (time : Z)
    (package_id : string) : M unit :=
  self ← get;
  if decide (package_id ∉ carried courier_id self)
  then reject (CourierDoesNotHave courier_id package_id)
  else
    package ← subscript (packages self !! package_id) package_id;
    if decide (pkg_destination package ≠ location_id)
    then reject (PackageDestinationIsNot package_id location_id)
    else
      update_status package_id (set_status_location delivered location_id);;
      update_status package_id (set_delivery_time time);;
      courier_remove courier_id package_id;;
      modify (λ s, set_delivered_packages ({[package_id]} ∪ delivered_packages s) s).

(** [_process_deliver] *)
Definition _process_deliver (action_data : action) (time : Z) : M unit :=
  courier_id ← subscript (a_courier action_data) "courier";
  location_id ← subscript (a_location action_data) "location";
  let packages := get_packages action_data in
  self ← get;
  courier_pos ← subscript (courier_positions self !! courier_id) courier_id;
  location_pos ← _get_location_coordinates location_id;
  match location_pos with
  | None => reject (InvalidLocationID location_id)
  | Some _ =>
      if decide (courier_pos ≠ location_pos)
      then reject (CourierNotAtLocation courier_id location_id)
      else
        location ← subscript (locations self !! location_id) location_id;
        if decide (loc_type location ≠ "destination")
        then reject (DeliverNonDestination location_id)
        else
          current_packages ← subscript (courier_packages self !! courier_id) courier_id;
          for_each packages (deliver_package courier_id location_id time)
  end.

(** [set(packages) != set(current_packages)] *)
Definition set_differs (packages current_packages : list string) : bool :=
  bool_decide ((list_to_set packages : gset string) ≠ list_to_set current_packages).

(** [_process_move] *)
Definition _process_move (action_data : action) (time : Z) : M unit :=
  courier_id ← subscript (a_courier action_data) "courier";
  from_pos ← subscript (a_from action_data) "from";
  to_pos ← subscript (a_to action_data) "to";
  let packages := get_packages action_data in
  self ← get;
  courier_pos ← subscript (courier_positions self !! courier_id) courier_id;
  if decide (courier_pos ≠ Some from_pos)
  then reject (CourierNotAtPosition courier_id from_pos)
  else if negb (_is_valid_move from_pos to_pos)
  then reject (InvalidMove from_pos to_pos)
  else
    current_packages ← subscript (courier_packages self !! courier_id) courier_id;
    if set_differs packages current_packages
    then reject (MovePackagesMismatch courier_id)
    else modify (set_courier_positions
                   (<[courier_id := Some to_pos]> (courier_positions self))).

(** ** Validation driver *)

(** The statements inside the [try] of the driver loop. *)
Definition process_action (action_data : action) : M unit :=
  time ← subscript (a_time action_data) "time";
  courier_id ← subscript (a_courier action_data) "courier";
  action_type ← subscript (a_action action_data) "action";
  self ← get;
  (if time >? completion_time self then modify (set_completion_time time) else pass);;
  self ← get;
  if decide (courier_id ∉ dom (couriers self))
  then reject (InvalidCourierID courier_id)
  else if decide (action_type = "pick_up") then _process_pickup action_data time
  else if decide (action_type = "drop_off") then _process_dropoff action_data time
  else if decide (action_type = "deliver") then _process_deliver action_data time
  else if decide (action_type = "move") then _process_move action_data time
  else if decide (action_type = "wait") then
    match a_location action_data with
    | Some location_id =>
        if decide (location_id ≠ "" ∧ location_id ∉ dom (locations self))
        then reject (InvalidLocationWait location_id)
        else pass
    | None => pass
    end
  else reject (InvalidActionType action_type).

(** One iteration of the driver loop: the [try] with its two [except]
    clauses.  Nothing escapes it. *)
Definition try_action (action_data : action) : M unit := λ self,
  match process_action action_data self with
  | Return _ self' => Return tt self'
  | Raise (KeyError k) self' => reject (MissingRequiredField k) self'
  | Raise e self' => reject (ErrorProcessingAction e) self'
  end.

(** [sorted(self.output_data, key=lambda x: x["time"])].  The key of every
    element is computed first, outside any [try]; the sort is stable. *)
Fixpoint insert_by_key (x : Z * action) (l : list (Z * action)) : list (Z * action) :=
  match l with
  | [] => [x]
  | y :: rest => if x.1 <=? y.1 then x :: y :: rest else y :: insert_by_key x rest
  end.

Definition sort_by_key (l : list (Z * action)) : list (Z * action) :=
  foldr insert_by_key [] l.

Fixpoint keyed (l : list action) : M (list (Z * action)) :=
  match l with
  | [] => mret []
  | x :: rest =>
      k ← subscript (a_time x) "time";
      ks ← keyed rest;
      mret ((k, x) :: ks)
  end.

Definition sorted (l : list action) : M (list action) :=
  ks ← keyed l;
  mret (snd <$> sort_by_key ks).

(** The order in which Python iterates over a set of strings.  It depends on
    the interpreter's per-process string hashing, not on the program: any
    enumeration of the elements can come out. *)
Record set_order := SetOrder {
  iterate :> gset string → list string;
  iterate_perm : ∀ X, iterate X ≡ₚ elements X
}.

(** [validate_solution] *)
Definition validate_solution (order : set_order)
    (input_file : file problem) (output_file : file (list action)) : M bool :=
  loaded ← load_data input_file output_file;
  if negb loaded then mret false
  else
    initialize_tracking;;
    self ← get;
    output ← match output_data self with Some d => mret d | None => raise TypeError end;
    sorted_actions ← sorted output;
    for_each sorted_actions try_action;;
    self ← get;
    let undelivered := dom (packages self) ∖ delivered_packages self in
    modify (set_undelivered_penalty (Z.of_nat (size undelivered) * 100));;
    (if decide (undelivered ≠ ∅)
     then errors_append (UndeliveredPackages (order undelivered))
     else pass);;
    self ← get;
    mret (bool_decide (length (errors self) = 0%nat)).

(** ** Score report *)

Record components := Components {
  r_completion_time : Z;
  r_undelivered_penalty : Z;
  r_invalid_action_penalty : Z
}.

Record report := Report {
  r_score : Z;
  r_components : components;
  r_errors : list message;
  r_warnings : list message;
  r_delivered_packages : Z;
  r_total_packages : Z;
  r_is_valid : bool
}.

(** [calculate_score] *)
Definition calculate_score : M report :=
  self ← get;
  let total_score :=
    completion_time self + undelivered_penalty self + invalid_action_penalty self in
  mret {| r_score := total_score;
          r_components :=
            {| r_completion_time := completion_time self;
               r_undelivered_penalty := undelivered_penalty self;
               r_invalid_action_penalty := invalid_action_penalty self |};
          r_errors := errors self;
          r_warnings := warnings self;
          r_delivered_packages := Z.of_nat (size (delivered_packages self));
          r_total_packages := Z.of_nat (size (packages self));
          r_is_valid := bool_decide (length (errors self) = 0%nat) |}.

(** [validate_and_score] *)
Definition validate_and_score (order : set_order)
    (input_file : file problem) (output_file : file (list action)) : M report :=
  is_valid ← validate_solution order input_file output_file;
  score_data ← calculate_score;
  mret score_data.

(** What a run of the script leaves behind: the report printed on standard
    output, if any, the exit code, and the exception that ended it, if any. *)
Record process := Process {
  stdout : option report;
  exit_code : Z;
  traceback : option exn
}.

(** [main], called with the two paths on the command line.  An exception
    that reaches the top level ends the interpreter with exit code 1 and
    nothing printed on standard output. *)
Definition main (order : set_order)
    (input_file : file problem) (output_file : file (list action)) : process :=
  match validate_and_score order input_file output_file __init__ with
  | Return result _ =>
      {| stdout := Some result;
         exit_code := if negb (r_is_valid result) then 1 else 0;
         traceback := None |}
  | Raise e _ => {| stdout := None; exit_code := 1; traceback := Some e |}
  end.

(** * Reasoning about methods *)

(** The state a method leaves, whether it returns or raises. *)
Definition exec {A} (m : M A) (s : state) : state :=
  match m s with
  | Return _ s' => s'
  | Raise _ s' => s'
  end.

(** Weakest precondition with a normal and an exceptional postcondition. *)
Definition wp {A} (m : M A) (Q : A → state → Prop) (E : exn → state → Prop)
    (s : state) : Prop :=
  match m s with
  | Return a s' => Q a s'
  | Raise e s' => E e s'
  end.

Lemma wp_ret {A} (a : A) Q E s : Q a s → wp (mret a) Q E s.
Proof. done. Qed.

Lemma wp_bind {A B} (m : M A) (f : A → M B) Q E s :
  wp m (λ a s', wp (f a) Q E s') E s → wp (m ≫= f) Q E s.
Proof. unfold wp, mbind, M_bind. by destruct (m s). Qed.

Lemma wp_mono {A} (m : M A) (Q Q' : A → state → Prop) (E E' : exn → state → Prop) s :
  wp m Q E s → (∀ a s', Q a s' → Q' a s') → (∀ e s', E e s' → E' e s') →
  wp m Q' E' s.
Proof. unfold wp. destruct (m s); eauto. Qed.

(** The loop rule: [J rest] holds when [rest] is still to be visited. *)
Lemma wp_for_each {A} (J : list A → state → Prop) E (body : A → M unit) xs s :
  (∀ x rest s, J (x :: rest) s → wp (body x) (λ _, J rest) E s) →
  J xs s → wp (for_each xs body) (λ _, J []) E s.
Proof.
  intros Hbody. revert s. induction xs as [|x rest IH]; intros s HJ; [done|].
  simpl. apply wp_bind. eapply wp_mono; [by apply Hbody| |done].
  intros u s' HJ'. by apply IH.
Qed.

(** The state after a rejection. *)
Definition rejected (msg : message) (s : state) : state :=
  set_invalid_action_penalty (invalid_action_penalty s + 10)
    (set_errors (errors s ++ [msg])%list s).

Lemma reject_eq msg s : reject msg s = Return tt (rejected msg s).
Proof. done. Qed.

Ltac munfold :=
  unfold reject, errors_append, penalize, pass, subscript, raise, get, modify,
    mbind, M_bind, mret, M_ret in *.

(** The state after a successful pick-up of [p] by [cid]. *)
Definition picked (cid p : string) (e : pkg_state) (l : list string) (s : state) : state :=
  set_courier_packages (<[cid := (l ++ [p])%list]> (courier_packages s))
    (set_package_status
       (<[p := set_status_location with_courier cid e]> (package_status s)) s).

Inductive pickup_outcome (cid lid : string) (t : Z) (p : string) (s : state) :
    res unit → Prop :=
  | pickup_rejects msg : pickup_outcome cid lid t p s (Return tt (rejected msg s))
  | pickup_raises e : pickup_outcome cid lid t p s (Raise e s)
  | pickup_takes pkg e l :
      packages s !! p = Some pkg →
      package_status s !! p = Some e →
      pkg_origin pkg = lid →
      ps_status e = at_warehouse →
      pkg_arrival_time pkg ≤ t →
      courier_packages s !! cid = Some l →
      pickup_outcome cid lid t p s (Return tt (picked cid p e l s)).

Lemma pickup_package_outcome cid lid t p s :
  is_Some (courier_packages s !! cid) →
  pickup_outcome cid lid t p s (pickup_package cid lid t p s).
Proof.
  intros [l Hl]. unfold pickup_package, update_status, courier_append. munfold.
  simpl.
  destruct (packages s !! p) as [pkg|] eqn:Hpkg; [|apply pickup_rejects].
  destruct (package_status s !! p) as [e|] eqn:He; [|apply pickup_raises].
  repeat case_decide; try apply pickup_rejects.
  destruct (Z.ltb_spec t (pkg_arrival_time pkg)); [apply pickup_rejects|].
  simpl. rewrite He. simpl. rewrite Hl.
  eapply pickup_takes; eauto.
Qed.

Lemma list_remove_elem x l : x ∈ l → is_Some (list_remove x l).
Proof.
  induction l as [|y l IH]; [by intros ?%elem_of_nil|].
  intros Hx. simpl. case_decide; [done|].
  apply elem_of_cons in Hx as [->|Hx]; [done|].
  destruct (IH Hx) as [l' ->]. done.
Qed.

Lemma list_remove_length x l l' :
  list_remove x l = Some l' → length l = S (length l').
Proof.
  revert l'. induction l as [|y l IH]; intros l' H; [done|].
  simpl in H. case_decide; simplify_eq/=; [done|].
  destruct (list_remove x l) as [l0|] eqn:E; simplify_eq/=. by rewrite (IH l0).
Qed.

Lemma list_remove_elem_of x l l' y :
  list_remove x l = Some l' → y ∈ l' → y ∈ l.
Proof.
  revert l'. induction l as [|z l IH]; intros l' H Hy; [done|].
  simpl in H. case_decide; simplify_eq/=; [by apply elem_of_cons; right|].
  destruct (list_remove x l) as [l0|] eqn:E; simplify_eq/=.
  apply elem_of_cons in Hy as [->|Hy]; apply elem_of_cons; eauto.
Qed.

Lemma list_remove_NoDup x l l' :
  list_remove x l = Some l' → NoDup l → NoDup l' ∧ x ∉ l'.
Proof.
  revert l'. induction l as [|z l IH]; intros l' H Hnd; [done|].
  apply NoDup_cons in Hnd as [Hz Hnd].
  simpl in H. case_decide; simplify_eq/=; [done|].
  destruct (list_remove x l) as [l0|] eqn:E; simplify_eq/=.
  destruct (IH l0 eq_refl Hnd) as [Hnd0 Hx0]. split.
  - apply NoDup_cons. split; [|done].
    intros Hz0. apply Hz. by eapply list_remove_elem_of.
  - intros [?|?]%elem_of_cons; congruence.
Qed.

(** The state after [cid] has dropped [p] at package point [lid]. *)
Definition dropped (cid lid p : string) (e : pkg_state) (l' c : list string)
    (s : state) : state :=
  set_package_point_contents (<[lid := (c ++ [p])%list]> (package_point_contents s))
    (set_courier_packages (<[cid := l']> (courier_packages s))
       (set_package_status
          (<[p := set_status_location at_package_point lid e]> (package_status s)) s)).

Inductive dropoff_outcome (cid lid p : string) (s : state) : res unit → Prop :=
  | dropoff_rejects msg : dropoff_outcome cid lid p s (Return tt (rejected msg s))
  | dropoff_raises e : dropoff_outcome cid lid p s (Raise e s)
  | dropoff_leaves e l l' c :
      courier_packages s !! cid = Some l →
      p ∈ l →
      list_remove p l = Some l' →
      package_status s !! p = Some e →
      package_point_contents s !! lid = Some c →
      dropoff_outcome cid lid p s (Return tt (dropped cid lid p e l' c s)).

Lemma carried_elem cid p s :
  p ∈ carried cid s → ∃ l, courier_packages s !! cid = Some l ∧ p ∈ l.
Proof.
  unfold carried. destruct (courier_packages s !! cid) as [l|]; simpl; [eauto|].
  by intros ?%elem_of_nil.
Qed.

Lemma dropoff_package_outcome cid lid p s :
  is_Some (package_point_contents s !! lid) →
  dropoff_outcome cid lid p s (dropoff_package cid lid p s).
Proof.
  intros [c Hc]. unfold dropoff_package, update_status, courier_remove,
    package_point_append. munfold. simpl.
  case_decide as Hin; [apply dropoff_rejects|].
  apply carried_elem in Hin as (l & Hl & Hin).
  destruct (package_status s !! p) as [e|] eqn:He; [|apply dropoff_raises].
  simpl. rewrite Hl. simpl.
  destruct (list_remove_elem _ _ Hin) as [l' Hl']. rewrite Hl'. simpl.
  rewrite Hc. by eapply dropoff_leaves.
Qed.

(** The state after [cid] has delivered [p] at [lid] at time [t]. *)
Definition handed_over (cid lid : string) (t : Z) (p : string) (e : pkg_state)
    (l' : list string) (s : state) : state :=
  set_delivered_packages ({[p]} ∪ delivered_packages s)
    (set_courier_packages (<[cid := l']> (courier_packages s))
       (set_package_status
          (<[p := set_delivery_time t (set_status_location delivered lid e)]>
             (package_status s)) s)).

Inductive deliver_outcome (cid lid : string) (t : Z) (p : string) (s : state) :
    res unit → Prop :=
  | deliver_rejects msg : deliver_outcome cid lid t p s (Return tt (rejected msg s))
  | deliver_raises e : deliver_outcome cid lid t p s (Raise e s)
  | deliver_hands e l l' pkg :
      courier_packages s !! cid = Some l →
      p ∈ l →
      list_remove p l = Some l' →
      package_status s !! p = Some e →
      packages s !! p = Some pkg →
      pkg_destination pkg = lid →
      deliver_outcome cid lid t p s (Return tt (handed_over cid lid t p e l' s)).

Lemma deliver_package_outcome cid lid t p s :
  deliver_outcome cid lid t p s (deliver_package cid lid t p s).
Proof.
  unfold deliver_package, update_status, courier_remove. munfold. simpl.
  case_decide as Hin; [apply deliver_rejects|].
  apply carried_elem in Hin as (l & Hl & Hin).
  destruct (packages s !! p) as [pkg|] eqn:Hpkg; [|apply deliver_raises].
  case_decide as Hdest; [apply deliver_rejects|].
  destruct (package_status s !! p) as [e|] eqn:He; [|apply deliver_raises].
  simpl. rewrite lookup_insert_eq. simpl. rewrite Hl. simpl.
  destruct (list_remove_elem _ _ Hin) as [l' Hl']. rewrite Hl'. simpl.
  rewrite insert_insert_eq.
  change (deliver_outcome cid lid t p s (Return tt (handed_over cid lid t p e l' s))).
  eapply deliver_hands; eauto.
Qed.

(** ** Elementary effects

    Every change a handler makes to the validator is one of these five.  The
    guards record what the handler has checked when it makes the change. *)
Inductive effect (s : state) : state → Prop :=
  | effect_reject msg : effect s (rejected msg s)
  | effect_pick cid p pkg e l :
      packages s !! p = Some pkg →
      package_status s !! p = Some e →
      ps_status e = at_warehouse →
      courier_packages s !! cid = Some l →
      effect s (picked cid p e l s)
  | effect_drop cid lid p e l l' c :
      courier_packages s !! cid = Some l →
      p ∈ l →
      list_remove p l = Some l' →
      package_status s !! p = Some e →
      package_point_contents s !! lid = Some c →
      effect s (dropped cid lid p e l' c s)
  | effect_deliver cid lid t p e l l' pkg :
      courier_packages s !! cid = Some l →
      p ∈ l →
      list_remove p l = Some l' →
      package_status s !! p = Some e →
      packages s !! p = Some pkg →
      effect s (handed_over cid lid t p e l' s)
  | effect_move cid pos :
      effect s (set_courier_positions (<[cid := Some pos]> (courier_positions s)) s).

(** What no effect touches: the tables built from the problem file and the
    key sets of the tracking dictionaries. *)
Record frame (s s' : state) : Prop := {
  frame_input : input_data s' = input_data s;
  frame_locations : locations s' = locations s;
  frame_couriers : couriers s' = couriers s;
  frame_packages : packages s' = packages s;
  frame_carried : dom (courier_packages s') = dom (courier_packages s);
  frame_contents : dom (package_point_contents s') = dom (package_point_contents s);
  frame_positions : dom (courier_positions s) ⊆ dom (courier_positions s')
}.

Lemma frame_refl s : frame s s.
Proof. by split. Qed.

Lemma frame_trans s1 s2 s3 : frame s1 s2 → frame s2 s3 → frame s1 s3.
Proof.
  intros F G. split; try (etrans; [apply G|apply F]).
  etrans; [apply F|apply G].
Qed.

Lemma dom_insert_Some {V} (m : gmap string V) k v :
  is_Some (m !! k) → dom (<[k := v]> m) = dom m.
Proof.
  intros H%elem_of_dom. rewrite dom_insert_L.
  apply set_eq. intros x. rewrite elem_of_union, elem_of_singleton.
  split; [intros [->|?]; done|by right].
Qed.

Lemma effect_frame s s' : effect s s' → frame s s'.
Proof.
  destruct 1; split; simpl; try done;
    try (rewrite dom_insert_Some; [done|by eauto]).
  rewrite dom_insert_L. set_solver.
Qed.

Lemma effects_frame s s' : rtc effect s s' → frame s s'.
Proof.
  induction 1 as [|s1 s2 s3 H _ IH]; [apply frame_refl|].
  eapply frame_trans; [by apply effect_frame|done].
Qed.

Lemma frame_carried_Some s s' k :
  frame s s' → is_Some (courier_packages s !! k) → is_Some (courier_packages s' !! k).
Proof. intros F H. apply elem_of_dom. rewrite (frame_carried _ _ F). by apply elem_of_dom. Qed.

Lemma frame_contents_Some s s' k :
  frame s s' → is_Some (package_point_contents s !! k) →
  is_Some (package_point_contents s' !! k).
Proof. intros F H. apply elem_of_dom. rewrite (frame_contents _ _ F). by apply elem_of_dom. Qed.

(** [always m P s]: [m], run from [s], ends in a state satisfying [P],
    whether it returns or raises. *)
Definition always {A} (m : M A) (P : state → Prop) (s : state) : Prop :=
  wp m (λ _, P) (λ _, P) s.

Lemma always_exec {A} (m : M A) P s : always m P s ↔ P (exec m s).
Proof. unfold always, wp, exec. by destruct (m s). Qed.

Lemma wp_subscript {A} (d : option A) k Q E s :
  (∀ v, d = Some v → Q v s) → (d = None → E (KeyError k) s) →
  wp (subscript d k) Q E s.
Proof. destruct d; unfold wp; simpl; eauto. Qed.

Lemma wp_get Q E s : Q s s → wp get Q E s.
Proof. done. Qed.

Lemma wp_modify f (Q : unit → state → Prop) E s : Q tt (f s) → wp (modify f) Q E s.
Proof. done. Qed.

Lemma wp_reject msg (Q : unit → state → Prop) E s :
  Q tt (rejected msg s) → wp (reject msg) Q E s.
Proof. done. Qed.

Lemma wp_raise {A} e (Q : A → state → Prop) E s : E e s → wp (raise e) Q E s.
Proof. done. Qed.

Lemma wp_coordinates lid Q E s :
  (∀ d, input_data s = Some d → Q (find_coordinates (map_locations d) lid) s) →
  (input_data s = None → E TypeError s) →
  wp (_get_location_coordinates lid) Q E s.
Proof.
  intros HQ HE. unfold _get_location_coordinates. apply wp_bind, wp_get.
  destruct (input_data s); [by apply wp_ret, HQ|by apply wp_raise, HE].
Qed.

(** One step of symbolic execution of a method body. *)
Ltac wp_step :=
  lazymatch goal with
  | |- always _ _ _ => unfold always
  | |- wp (mbind _ _) _ _ _ => apply wp_bind
  | |- wp (subscript _ _) _ _ _ => apply wp_subscript; [intros ? ?|intros ?]
  | |- wp get _ _ _ => apply wp_get
  | |- wp (modify _) _ _ _ => apply wp_modify
  | |- wp (reject _) _ _ _ => apply wp_reject
  | |- wp (raise _) _ _ _ => apply wp_raise
  | |- wp (mret _) _ _ _ => apply wp_ret
  | |- wp pass _ _ _ => apply wp_ret
  | |- wp (_get_location_coordinates _) _ _ _ =>
      apply wp_coordinates; [intros ? ?|intros ?]
  | |- wp (if decide _ then _ else _) _ _ _ => case_decide
  | |- wp (match ?x with _ => _ end) _ _ _ => destruct x eqn:?
  | |- wp (let _ := _ in _) _ _ _ => cbv zeta
  end.

Ltac wp_steps := repeat wp_step.

Lemma pickup_loop_effects cid lid t ps s0 s :
  rtc effect s0 s → is_Some (courier_packages s !! cid) →
  always (for_each ps (pickup_package cid lid t)) (rtc effect s0) s.
Proof.
  intros H0 Hc. unfold always.
  eapply wp_mono; [apply (wp_for_each
    (λ _ s', rtc effect s0 s' ∧ is_Some (courier_packages s' !! cid))
    (λ _, rtc effect s0)); [|done]| |]; simpl; [|tauto|done].
  clear. intros p _ s [H0 Hc]. unfold wp.
  destruct (pickup_package_outcome cid lid t p s Hc).
  - assert (effect s (rejected msg s)) as Hstep by constructor.
    split; [by eapply rtc_r|]. by eapply frame_carried_Some, Hc; apply effect_frame.
  - done.
  - assert (effect s (picked cid p e l s)) as Hstep by (by econstructor).
    split; [by eapply rtc_r|]. by eapply frame_carried_Some, Hc; apply effect_frame.
Qed.

Lemma dropoff_loop_effects cid lid ps s0 s :
  rtc effect s0 s → is_Some (package_point_contents s !! lid) →
  always (for_each ps (dropoff_package cid lid)) (rtc effect s0) s.
Proof.
  intros H0 Hc. unfold always.
  eapply wp_mono; [apply (wp_for_each
    (λ _ s', rtc effect s0 s' ∧ is_Some (package_point_contents s' !! lid))
    (λ _, rtc effect s0)); [|done]| |]; simpl; [|tauto|done].
  clear. intros p _ s [H0 Hc]. unfold wp.
  destruct (dropoff_package_outcome cid lid p s Hc).
  - assert (effect s (rejected msg s)) as Hstep by constructor.
    split; [by eapply rtc_r|]. by eapply frame_contents_Some, Hc; apply effect_frame.
  - done.
  - assert (effect s (dropped cid lid p e l' c s)) as Hstep by (by econstructor).
    split; [by eapply rtc_r|]. by eapply frame_contents_Some, Hc; apply effect_frame.
Qed.

Lemma deliver_loop_effects cid lid t ps s0 s :
  rtc effect s0 s →
  always (for_each ps (deliver_package cid lid t)) (rtc effect s0) s.
Proof.
  intros H0. unfold always.
  eapply wp_mono; [apply (wp_for_each (λ _, rtc effect s0) (λ _, rtc effect s0));
    [|done]| |]; simpl; [|done..].
  clear. intros p _ s H0. unfold wp.
  destruct (deliver_package_outcome cid lid t p s).
  - eapply rtc_r; [done|constructor].
  - done.
  - eapply rtc_r; [done|by econstructor].
Qed.

Lemma reject_effects s0 s msg : rtc effect s0 s → rtc effect s0 (rejected msg s).
Proof. intros H. eapply rtc_r; [done|constructor]. Qed.

#[local] Hint Resolve reject_effects : core.

Lemma _process_pickup_effects a t s0 s :
  rtc effect s0 s → always (_process_pickup a t) (rtc effect s0) s.
Proof.
  intros H0. unfold _process_pickup. wp_steps; auto.
  apply pickup_loop_effects; eauto.
Qed.

Lemma _process_dropoff_effects a t s0 s :
  rtc effect s0 s → always (_process_dropoff a t) (rtc effect s0) s.
Proof.
  intros H0. unfold _process_dropoff. wp_steps; auto.
  apply dropoff_loop_effects; eauto.
Qed.

Lemma _process_deliver_effects a t s0 s :
  rtc effect s0 s → always (_process_deliver a t) (rtc effect s0) s.
Proof.
  intros H0. unfold _process_deliver. wp_steps; auto.
  by apply deliver_loop_effects.
Qed.

Lemma _process_move_effects a t s0 s :
  rtc effect s0 s → always (_process_move a t) (rtc effect s0) s.
Proof.
  intros H0. unfold _process_move. wp_steps; auto;
    (eapply rtc_r; [done|constructor]).
Qed.

(** The driver's bookkeeping of the completion time. *)
Definition tick (t : Z) (s : state) : state :=
  if t >? completion_time s then set_completion_time t s else s.

(** What the statements inside the [try] do: a missing key raises before
    anything has changed; otherwise the clock is advanced and the handler
    runs from there. *)
Lemma process_action_spec a s :
  wp (process_action a)
    (λ _ s', ∃ t, a_time a = Some t ∧ rtc effect (tick t s) s')
    (λ _ s', s' = s ∨ ∃ t, a_time a = Some t ∧ rtc effect (tick t s) s') s.
Proof.
  unfold process_action. wp_steps;
    lazymatch goal with
    | |- _ = _ ∨ _ => left; reflexivity
    | H : (?v >? completion_time s) = _ |- _ =>
        assert (rtc effect (tick v s) (tick v s)) as Ht by apply rtc_refl;
        unfold tick at 2 in Ht; rewrite H in Ht;
        lazymatch goal with
        | |- wp _ _ _ _ =>
            eapply wp_mono;
            [lazymatch goal with
             | |- wp (_process_pickup _ _) _ _ _ => apply _process_pickup_effects, Ht
             | |- wp (_process_dropoff _ _) _ _ _ => apply _process_dropoff_effects, Ht
             | |- wp (_process_deliver _ _) _ _ _ => apply _process_deliver_effects, Ht
             | |- wp (_process_move _ _) _ _ _ => apply _process_move_effects, Ht
             end
            |intros ? ? ?; exists v; split; assumption
            |intros ? ? ?; right; exists v; split; assumption]
        | |- _ =>
            exists v; (split; [assumption|]);
            first [ exact Ht | exact (reject_effects _ _ _ Ht) ]
        end
    end.
Qed.

(** The driver's [try] lets nothing escape. *)
Lemma try_action_returns a s : try_action a s = Return tt (exec (try_action a) s).
Proof.
  unfold exec, try_action. destruct (process_action a s) as [[] s'|e s']; [done|].
  by destruct e.
Qed.

(** One iteration of the driver loop either rejects the record outright, or
    advances the clock to the record's time and applies effects. *)
Lemma try_action_spec a s :
  (∃ msg, exec (try_action a) s = rejected msg s) ∨
  (∃ t, a_time a = Some t ∧ rtc effect (tick t s) (exec (try_action a) s)).
Proof.
  pose proof (process_action_spec a s) as H.
  unfold wp in H. unfold exec, try_action.
  destruct (process_action a s) as [[] s'|e s']; [by right|].
  destruct H as [->|(t & Ht & H)].
  - left. destruct e; by eexists.
  - right. exists t. split; [done|].
    destruct e; exact (reject_effects _ s' _ H).
Qed.

(** A step of the replay: an effect, or the clock moving forward. *)
Inductive step (s : state) : state → Prop :=
  | step_effect s' : effect s s' → step s s'
  | step_tick t : completion_time s < t → step s (set_completion_time t s).

Lemma tick_steps t s : rtc step s (tick t s).
Proof.
  unfold tick. destruct (Z.gtb_spec t (completion_time s)); [|done].
  apply rtc_once. by constructor.
Qed.

Lemma effects_steps s s' : rtc effect s s' → rtc step s s'.
Proof. apply rtc_subrel. by constructor. Qed.

Lemma try_action_steps a s : rtc step s (exec (try_action a) s).
Proof.
  destruct (try_action_spec a s) as [[msg ->]|(t & _ & H)].
  - apply rtc_once. constructor. constructor.
  - etrans; [apply tick_steps|by apply effects_steps].
Qed.

(** The state after the driver loop has run over [acts]. *)
Definition replay (acts : list action) (s : state) : state :=
  exec (for_each acts try_action) s.

Lemma replay_nil s : replay [] s = s.
Proof. done. Qed.

Lemma replay_cons a acts s : replay (a :: acts) s = replay acts (exec (try_action a) s).
Proof.
  unfold replay, exec at 1 3. simpl. unfold mbind, M_bind.
  by rewrite try_action_returns.
Qed.

Lemma replay_app acts more s : replay (acts ++ more) s = replay more (replay acts s).
Proof.
  revert s. induction acts as [|a acts IH]; intros s; [done|].
  simpl. by rewrite !replay_cons, IH.
Qed.

Lemma for_each_try_action acts s :
  for_each acts try_action s = Return tt (replay acts s).
Proof.
  revert s. induction acts as [|a acts IH]; intros s; [done|].
  rewrite replay_cons. simpl. unfold mbind, M_bind.
  by rewrite try_action_returns, IH.
Qed.

Lemma replay_steps acts s : rtc step s (replay acts s).
Proof.
  revert s. induction acts as [|a acts IH]; intros s; [done|].
  rewrite replay_cons. etrans; [|apply IH]. apply try_action_steps.
Qed.

(** ** Invariants of the replay *)

(** Every package listed as carried by a courier is listed once, has status
    [with_courier] and names that courier as its holder. *)
Definition carry_inv (s : state) : Prop :=
  ∀ cid l, courier_packages s !! cid = Some l →
    NoDup l ∧
    ∀ p, p ∈ l →
      ∃ e, package_status s !! p = Some e ∧
           ps_status e = with_courier ∧ ps_location e = cid.

Lemma carry_inv_status s cid l p e :
  carry_inv s → courier_packages s !! cid = Some l → p ∈ l →
  package_status s !! p = Some e →
  ps_status e = with_courier ∧ ps_location e = cid.
Proof.
  intros Hinv Hl Hp He. destruct (Hinv cid l Hl) as [_ H].
  destruct (H p Hp) as (e' & He' & ? & ?). by simplify_eq.
Qed.

(** Taking [p] out of [cid]'s list and giving it a status other than
    [with_courier] keeps the invariant. *)
Lemma carry_inv_release s cid p e e' l l' :
  carry_inv s →
  courier_packages s !! cid = Some l → p ∈ l → list_remove p l = Some l' →
  package_status s !! p = Some e →
  ∀ cid2 l2, <[cid := l']> (courier_packages s) !! cid2 = Some l2 →
    NoDup l2 ∧
    ∀ q, q ∈ l2 →
      ∃ e2, <[p := e']> (package_status s) !! q = Some e2 ∧
            ps_status e2 = with_courier ∧ ps_location e2 = cid2.
Proof.
  intros Hinv Hl Hp Hl' He cid2 l2 Hl2.
  destruct (carry_inv_status _ _ _ _ _ Hinv Hl Hp He) as [_ Hloc].
  destruct (Hinv cid l Hl) as [Hnd Hmem].
  destruct (list_remove_NoDup _ _ _ Hl' Hnd) as [Hnd' Hnotin].
  destruct (decide (cid = cid2)) as [<-|Hne].
  - rewrite lookup_insert_eq in Hl2. simplify_eq. split; [done|].
    intros q Hq. assert (q ≠ p) by congruence.
    rewrite lookup_insert_ne by done.
    apply Hmem. by eapply list_remove_elem_of.
  - rewrite lookup_insert_ne in Hl2 by done.
    destruct (Hinv cid2 l2 Hl2) as [Hnd2 Hmem2]. split; [done|].
    intros q Hq. destruct (Hmem2 q Hq) as (e2 & He2 & Hst2 & Hloc2).
    assert (q ≠ p) by (intros ->; simplify_eq; congruence).
    rewrite lookup_insert_ne by done. eauto.
Qed.

Lemma effect_carry_inv s s' : carry_inv s → effect s s' → carry_inv s'.
Proof.
  intros Hinv Heff.
  destruct Heff as [msg|cid p pkg e l Hpkg He Hst Hl
                   |cid lid p e l l' c Hl Hp Hl' He Hc
                   |cid lid t p e l l' pkg Hl Hp Hl' He Hpkg|cid pos]; try done.
  - (* pick-up: p was at the warehouse, so no courier listed it *)
    assert (∀ cid2 l2, courier_packages s !! cid2 = Some l2 → p ∉ l2) as Hfresh.
    { intros cid2 l2 Hl2 Hin.
      destruct (carry_inv_status _ _ _ _ _ Hinv Hl2 Hin He). congruence. }
    intros cid2 l2 Hl2. simpl in *.
    destruct (decide (cid = cid2)) as [<-|Hne].
    + rewrite lookup_insert_eq in Hl2. simplify_eq.
      destruct (Hinv cid l Hl) as [Hnd Hmem]. split.
      * apply NoDup_app. split_and!; [done| |apply NoDup_singleton].
        intros q Hq Hqp%list_elem_of_singleton. subst q. by eapply Hfresh.
      * intros q [Hq|Hqp%list_elem_of_singleton]%elem_of_app; [|subst q].
        -- assert (q ≠ p) by (intros ->; by eapply Hfresh).
           rewrite lookup_insert_ne by done. by apply Hmem.
        -- rewrite lookup_insert_eq. by eexists.
    + rewrite lookup_insert_ne in Hl2 by done.
      destruct (Hinv cid2 l2 Hl2) as [Hnd2 Hmem2]. split; [done|].
      intros q Hq. assert (q ≠ p) by (intros ->; by eapply Hfresh).
      rewrite lookup_insert_ne by done. by apply Hmem2.
  - intros cid2 l2 Hl2. simpl in *. by eapply carry_inv_release.
  - intros cid2 l2 Hl2. simpl in *. by eapply carry_inv_release.
Qed.

Lemma step_carry_inv s s' : carry_inv s → step s s' → carry_inv s'.
Proof. intros Hinv [s2 Heff|t _]; [by eapply effect_carry_inv|done]. Qed.

Lemma steps_carry_inv s s' : carry_inv s → rtc step s s' → carry_inv s'.
Proof. intros Hinv H. induction H; eauto using step_carry_inv. Qed.

(** The status graph of a package. *)
Inductive edge : status → status → Prop :=
  | edge_pick_up : edge at_warehouse with_courier
  | edge_drop_off : edge with_courier at_package_point
  | edge_deliver : edge with_courier delivered.

(** [package_status[p]["status"]], when [p] has an entry. *)
Definition status_of (s : state) (p : string) : option status :=
  ps_status <$> package_status s !! p.

Lemma effect_status s s' p st :
  carry_inv s → effect s s' → status_of s p = Some st →
  ∃ st', status_of s' p = Some st' ∧ (st' = st ∨ edge st st').
Proof.
  unfold status_of. intros Hinv Heff Hst.
  destruct Heff as [msg|cid q pkg e l Hpkg He Hste Hl
                   |cid lid q e l l' c Hl Hq Hl' He Hc
                   |cid lid t q e l l' pkg Hl Hq Hl' He Hpkg|cid pos];
    simpl; eauto;
    (destruct (decide (q = p)) as [->|Hne];
     [|rewrite lookup_insert_ne by done; eauto]);
    rewrite lookup_insert_eq; rewrite He in Hst; simplify_eq/=;
    eexists; (split; [done|right]).
  - rewrite Hste. constructor.
  - destruct (carry_inv_status _ _ _ _ _ Hinv Hl Hq He) as [-> _]. constructor.
  - destruct (carry_inv_status _ _ _ _ _ Hinv Hl Hq He) as [-> _]. constructor.
Qed.

Lemma steps_status s s' p st :
  carry_inv s → rtc step s s' → status_of s p = Some st →
  ∃ st', status_of s' p = Some st' ∧ rtc edge st st'.
Proof.
  intros Hinv H. revert st. induction H as [|s1 s2 s3 H12 _ IH]; intros st Hst.
  { by exists st. }
  assert (∃ st2, status_of s2 p = Some st2 ∧ rtc edge st st2) as (st2 & Hst2 & Hpath).
  { destruct H12 as [s2' Heff|t _]; [|by exists st].
    destruct (effect_status _ _ _ _ Hinv Heff Hst) as (st2 & ? & [Heq|?]);
      exists st2; (split; [done|]); [by rewrite Heq|by apply rtc_once]. }
  destruct (IH (step_carry_inv _ _ Hinv H12) st2 Hst2) as (st' & ? & ?).
  exists st'. split; [done|]. by etrans.
Qed.

(** Nothing leaves [at_package_point], nor [delivered]. *)
Lemma edge_terminal st st' :
  rtc edge st st' → st = at_package_point ∨ st = delivered → st' = st.
Proof.
  intros H Hst. induction H as [|st1 st2 st3 H12 _ _]; [done|].
  destruct H12, Hst; discriminate.
Qed.

(** Only delivered packages of the problem are in the delivered set. *)
Definition delivered_known (s : state) : Prop :=
  delivered_packages s ⊆ dom (packages s).

Lemma step_delivered_known s s' : delivered_known s → step s s' → delivered_known s'.
Proof.
  unfold delivered_known. intros Hinv [s2 Heff|t _]; [|done].
  destruct Heff; simpl; try done.
  apply union_least; [|done]. apply singleton_subseteq_l, elem_of_dom. eauto.
Qed.

Lemma steps_delivered_known s s' :
  delivered_known s → rtc step s s' → delivered_known s'.
Proof. intros Hinv H. induction H; eauto using step_delivered_known. Qed.

(** ** The state the replay starts from *)

(** The validator after [load_data] has read both documents. *)
Definition loaded (prob : problem) (log : list action) : state :=
  set_output_data (Some log) (set_input_data (Some prob) __init__).

Lemma load_data_loaded prob log :
  load_data (Loaded prob) (Loaded log) __init__ = Return true (loaded prob log).
Proof. done. Qed.

(** The validator after [initialize_tracking]. *)
Definition initial (prob : problem) (log : list action) : state :=
  exec initialize_tracking (loaded prob log).

(** What holds of the validator while the tracking tables are being built. *)
Record fresh (prob : problem) (log : list action) (s : state) : Prop := {
  fresh_input : input_data s = Some prob;
  fresh_output : output_data s = Some log;
  fresh_errors : errors s = [];
  fresh_warnings : warnings s = [];
  fresh_time : completion_time s = 0;
  fresh_penalty : invalid_action_penalty s = 0;
  fresh_delivered : delivered_packages s = ∅;
  fresh_carried : ∀ cid l, courier_packages s !! cid = Some l → l = [];
  fresh_contents : ∀ lid l, package_point_contents s !! lid = Some l → l = [];
  fresh_locations : ∀ lid loc, locations s !! lid = Some loc → loc ∈ map_locations prob;
  fresh_couriers : ∀ cid c, couriers s !! cid = Some c → c ∈ in_couriers prob;
  fresh_status : ∀ p e, package_status s !! p = Some e → ps_status e = at_warehouse;
  fresh_delivery : ∀ p e, package_status s !! p = Some e → ps_delivery_time e = None
}.

Lemma loaded_fresh prob log : fresh prob log (loaded prob log).
Proof. by split. Qed.

Lemma insert_all {V} (P : string → V → Prop) (m : gmap string V) k v :
  P k v → (∀ i x, m !! i = Some x → P i x) →
  ∀ i x, <[k := v]> m !! i = Some x → P i x.
Proof.
  intros Hv Hm i x. destruct (decide (k = i)) as [->|Hne].
  - rewrite lookup_insert_eq. by intros [= <-].
  - rewrite lookup_insert_ne by done. apply Hm.
Qed.

Lemma locations_loop_fresh prob log locs s :
  locs ⊆ map_locations prob → fresh prob log s →
  wp (for_each locs (λ location,
        modify (λ s, set_locations (<[loc_id location := location]> (locations s)) s);;
        if decide (loc_type location = "package_point")
        then modify (λ s, set_package_point_contents
                            (<[loc_id location := []]> (package_point_contents s)) s)
        else pass))
     (λ _, fresh prob log) (λ _ _, False) s.
Proof.
  intros Hsub Hs.
  eapply wp_mono; [apply (wp_for_each
    (λ rest s', rest ⊆ map_locations prob ∧ fresh prob log s') (λ _ _, False));
    [|done]| |]; simpl; [|tauto|done].
  clear. intros x rest s [Hsub Hs].
  assert (x ∈ map_locations prob) by (apply Hsub; left).
  assert (rest ⊆ map_locations prob) by (intros y Hy; apply Hsub; by right).
  destruct Hs. wp_steps; (split; [done|]); split; simpl; try done.
  all: try (apply (insert_all (λ _ l, l = [])); by eauto).
  all: apply (insert_all (λ _ loc, loc ∈ map_locations prob)); by eauto.
Qed.

Lemma couriers_loop_fresh prob log cs s :
  cs ⊆ in_couriers prob → fresh prob log s →
  wp (for_each cs (λ courier,
        let courier_id := courier_id courier in
        modify (λ s, set_couriers (<[courier_id := courier]> (couriers s)) s);;
        let start_loc := courier_start_location courier in
        start_coords ← _get_location_coordinates start_loc;
        modify (λ s, set_courier_positions
                       (<[courier_id := start_coords]> (courier_positions s)) s);;
        modify (λ s, set_courier_packages
                       (<[courier_id := []]> (courier_packages s)) s)))
     (λ _, fresh prob log) (λ _ _, False) s.
Proof.
  intros Hsub Hs.
  eapply wp_mono; [apply (wp_for_each
    (λ rest s', rest ⊆ in_couriers prob ∧ fresh prob log s') (λ _ _, False));
    [|done]| |]; simpl; [|tauto|done].
  clear. intros x rest s [Hsub Hs].
  assert (x ∈ in_couriers prob) by (apply Hsub; left).
  assert (rest ⊆ in_couriers prob) by (intros y Hy; apply Hsub; by right).
  destruct Hs. wp_steps; simpl in *; [|congruence].
  split; [done|]. split; simpl; try done.
  - apply (insert_all (λ _ l, l = [])); by eauto.
  - apply (insert_all (λ _ c, c ∈ in_couriers prob)); by eauto.
Qed.

Lemma packages_loop_fresh prob log ps s :
  fresh prob log s →
  wp (for_each ps (λ package,
        let package_id := pkg_id package in
        modify (λ s, set_packages (<[package_id := package]> (packages s)) s);;
        modify (λ s, set_package_status
                       (<[package_id := {| ps_status := at_warehouse;
                                           ps_location := pkg_origin package;
                                           ps_arrival_time := pkg_arrival_time package;
                                           ps_delivery_time := None |}]>
                          (package_status s)) s)))
     (λ _, fresh prob log) (λ _ _, False) s.
Proof.
  intros Hs.
  eapply wp_mono; [apply (wp_for_each (λ _, fresh prob log) (λ _ _, False));
    [|done]| |]; simpl; [|done..].
  clear. intros x _ s []. wp_steps. split; simpl; try done.
  - by apply (insert_all (λ _ e, ps_status e = at_warehouse)).
  - by apply (insert_all (λ _ e, ps_delivery_time e = None)).
Qed.

Lemma initialize_tracking_fresh prob log :
  wp initialize_tracking (λ _, fresh prob log) (λ _ _, False) (loaded prob log).
Proof.
  unfold initialize_tracking. wp_step. wp_step. wp_step. simpl. wp_step.
  wp_step. eapply wp_mono; [by apply locations_loop_fresh, loaded_fresh| |done].
  intros u1 s1 H1. simpl in *. wp_step.
  eapply wp_mono; [by apply couriers_loop_fresh| |done].
  intros u2 s2 H2. simpl in *. by apply packages_loop_fresh.
Qed.

Lemma initialize_tracking_returns prob log :
  initialize_tracking (loaded prob log) = Return tt (initial prob log).
Proof.
  pose proof (initialize_tracking_fresh prob log) as H. unfold wp in H.
  unfold initial, exec. by destruct (initialize_tracking _) as [[] ?|].
Qed.

Lemma initial_fresh prob log : fresh prob log (initial prob log).
Proof.
  pose proof (initialize_tracking_fresh prob log) as H. unfold wp in H.
  unfold initial, exec. by destruct (initialize_tracking _).
Qed.

Lemma initial_carry_inv prob log : carry_inv (initial prob log).
Proof.
  intros cid l Hl.
  rewrite (fresh_carried _ _ _ (initial_fresh prob log) _ _ Hl).
  split; [constructor|]. by intros p ?%elem_of_nil.
Qed.

Lemma initial_delivered_known prob log : delivered_known (initial prob log).
Proof.
  unfold delivered_known.
  rewrite (fresh_delivered _ _ _ (initial_fresh prob log)). apply empty_subseteq.
Qed.

(** ** Capacities *)

(** No courier carries more packages than its capacity. *)
Definition courier_load_ok (s : state) : Prop :=
  ∀ cid c l, couriers s !! cid = Some c → courier_packages s !! cid = Some l →
    Z.of_nat (length l) ≤ courier_capacity c.

(** No package point holds more packages than its capacity. *)
Definition point_load_ok (s : state) : Prop :=
  ∀ lid loc cap l,
    locations s !! lid = Some loc → loc_type loc = "package_point" →
    loc_capacity loc = Some cap → package_point_contents s !! lid = Some l →
    Z.of_nat (length l) ≤ cap.

Definition within_capacity (s : state) : Prop :=
  courier_load_ok s ∧ point_load_ok s.

(** The problem's declared capacities are at least 1. *)
Definition well_formed (prob : problem) : Prop :=
  Forall (λ c, 1 ≤ courier_capacity c) (in_couriers prob) ∧
  Forall (λ loc, loc_type loc = "package_point" →
                 ∃ cap, loc_capacity loc = Some cap ∧ 1 ≤ cap) (map_locations prob).

Lemma initial_within_capacity prob log :
  well_formed prob → within_capacity (initial prob log).
Proof.
  intros [Hc Hl]. pose proof (initial_fresh prob log) as Hf. split.
  - intros cid c l Hcid Hload.
    rewrite (fresh_carried _ _ _ Hf _ _ Hload). simpl.
    apply (fresh_couriers _ _ _ Hf) in Hcid.
    rewrite Forall_forall in Hc. specialize (Hc _ Hcid). lia.
  - intros lid loc cap l Hlid Hty Hcap Hload.
    rewrite (fresh_contents _ _ _ Hf _ _ Hload). simpl.
    apply (fresh_locations _ _ _ Hf) in Hlid.
    rewrite Forall_forall in Hl. destruct (Hl _ Hlid Hty) as (cap' & ? & ?).
    simplify_eq. lia.
Qed.

(** A courier's list may shrink or stay: the courier bound survives. *)
Lemma courier_load_shrink s cid l l' :
  courier_load_ok s → courier_packages s !! cid = Some l →
  (length l' ≤ length l)%nat →
  ∀ cid2 c l2, couriers s !! cid2 = Some c →
    <[cid := l']> (courier_packages s) !! cid2 = Some l2 →
    Z.of_nat (length l2) ≤ courier_capacity c.
Proof.
  intros Hok Hl Hlen cid2 c l2 Hc Hl2.
  destruct (decide (cid = cid2)) as [<-|Hne].
  - rewrite lookup_insert_eq in Hl2. simplify_eq.
    specialize (Hok _ _ _ Hc Hl). lia.
  - rewrite lookup_insert_ne in Hl2 by done. eauto.
Qed.

Lemma pickup_loop_capacity cid lid t ps s c l :
  within_capacity s →
  couriers s !! cid = Some c → courier_packages s !! cid = Some l →
  Z.of_nat (length l) + Z.of_nat (length ps) ≤ courier_capacity c →
  always (for_each ps (pickup_package cid lid t)) within_capacity s.
Proof.
  intros Hok Hc Hl Hroom. unfold always.
  eapply wp_mono; [apply (wp_for_each
    (λ rest s', within_capacity s' ∧ couriers s' !! cid = Some c ∧
       ∃ l', courier_packages s' !! cid = Some l' ∧
             Z.of_nat (length l') + Z.of_nat (length rest) ≤ courier_capacity c)
    (λ _, within_capacity)); [|by eauto]| |]; simpl; [|tauto|done].
  clear. intros p rest s ([Hcour Hpoint] & Hc & l & Hl & Hroom). unfold wp.
  simpl in Hroom.
  destruct (pickup_package_outcome cid lid t p s (mk_is_Some _ _ Hl))
    as [msg|e|pkg e l0 Hpkg He Horig Hst Harr Hl0].
  - split; [done|]. split; [done|]. exists l. split; [done|lia].
  - done.
  - simplify_eq. split; [split|].
    + intros cid2 c2 l2 Hc2 Hl2. simpl in *.
      destruct (decide (cid = cid2)) as [<-|Hne].
      * rewrite lookup_insert_eq in Hl2. simplify_eq.
        rewrite length_app. simpl. lia.
      * rewrite lookup_insert_ne in Hl2 by done. eauto.
    + done.
    + split; [done|]. exists (l ++ [p])%list. simpl.
      rewrite lookup_insert_eq. split; [done|]. rewrite length_app. simpl. lia.
Qed.

Lemma dropoff_loop_capacity cid lid ps s loc cap l :
  within_capacity s →
  locations s !! lid = Some loc → loc_capacity loc = Some cap →
  package_point_contents s !! lid = Some l →
  Z.of_nat (length l) + Z.of_nat (length ps) ≤ cap →
  always (for_each ps (dropoff_package cid lid)) within_capacity s.
Proof.
  intros Hok Hloc Hcap Hl Hroom. unfold always.
  eapply wp_mono; [apply (wp_for_each
    (λ rest s', within_capacity s' ∧ locations s' !! lid = Some loc ∧
       ∃ l', package_point_contents s' !! lid = Some l' ∧
             Z.of_nat (length l') + Z.of_nat (length rest) ≤ cap)
    (λ _, within_capacity)); [|by eauto]| |]; simpl; [|tauto|done].
  clear Hok Hloc Hl Hroom s l ps.
  intros p rest s ([Hcour Hpoint] & Hloc & l & Hl & Hroom). unfold wp.
  simpl in Hroom.
  destruct (dropoff_package_outcome cid lid p s (mk_is_Some _ _ Hl))
    as [msg|e|e l0 l0' c0 Hl0 Hp Hl0' He Hc0].
  - split; [done|]. split; [done|]. exists l. split; [done|lia].
  - done.
  - simplify_eq. split; [split|].
    + intros cid2 c2 l2 Hc2 Hl2. simpl in *.
      eapply (courier_load_shrink s cid l0 l0'); eauto.
      rewrite (list_remove_length _ _ _ Hl0'). lia.
    + intros lid2 loc2 cap2 l2 Hloc2 Hty2 Hcap2 Hl2. simpl in *.
      destruct (decide (lid = lid2)) as [<-|Hne].
      * rewrite lookup_insert_eq in Hl2. simplify_eq.
        rewrite length_app. simpl. lia.
      * rewrite lookup_insert_ne in Hl2 by done. eauto.
    + split; [done|]. exists (l ++ [p])%list. simpl.
      rewrite lookup_insert_eq. split; [done|]. rewrite length_app. simpl. lia.
Qed.

Lemma deliver_loop_capacity cid lid t ps s :
  within_capacity s →
  always (for_each ps (deliver_package cid lid t)) within_capacity s.
Proof.
  intros Hok. unfold always.
  eapply wp_mono; [apply (wp_for_each (λ _, within_capacity) (λ _, within_capacity));
    [|done]| |]; simpl; [|done..].
  clear. intros p _ s [Hcour Hpoint]. unfold wp.
  destruct (deliver_package_outcome cid lid t p s)
    as [msg|e|e l l' pkg Hl Hp Hl' He Hpkg Hdest]; [done..|].
  split; [|done]. intros cid2 c2 l2 Hc2 Hl2. simpl in *.
  eapply (courier_load_shrink s cid l l'); eauto.
  rewrite (list_remove_length _ _ _ Hl'). lia.
Qed.

Lemma gtb_false a b : (a >? b) = false → a ≤ b.
Proof. by destruct (Z.gtb_spec a b). Qed.

Lemma process_action_capacity a s :
  within_capacity s → always (process_action a) within_capacity s.
Proof.
  intros Hok.
  unfold process_action, _process_pickup, _process_dropoff, _process_deliver,
    _process_move.
  wp_steps; try done.
  all: repeat match goal with
    | H : (_ + _ >? _) = false |- _ => apply gtb_false in H
    end.
  all: first [ by eapply pickup_loop_capacity
             | by eapply dropoff_loop_capacity
             | by apply deliver_loop_capacity ].
Qed.

Lemma try_action_capacity a s :
  within_capacity s → within_capacity (exec (try_action a) s).
Proof.
  intros Hok. pose proof (process_action_capacity a s Hok) as H.
  unfold always, wp in H. unfold exec, try_action.
  destruct (process_action a s) as [[] s'|e s']; [done|]. by destruct e.
Qed.

Lemma replay_capacity acts s :
  within_capacity s → within_capacity (replay acts s).
Proof.
  revert s. induction acts as [|a acts IH]; intros s Hok; [done|].
  rewrite replay_cons. by apply IH, try_action_capacity.
Qed.

(** ** Sorting the log *)

(** The keys [sorted] computes, when every record has a ["time"]. *)
Fixpoint keys_of (l : list action) : option (list (Z * action)) :=
  match l with
  | [] => Some []
  | x :: rest =>
      match a_time x, keys_of rest with
      | Some k, Some ks => Some ((k, x) :: ks)
      | _, _ => None
      end
  end.

(** The list the driver loop runs over. *)
Definition sort_log (l : list action) : option (list action) :=
  (λ ks, snd <$> sort_by_key ks) <$> keys_of l.

Lemma keyed_eq l s :
  keyed l s = match keys_of l with
              | Some ks => Return ks s
              | None => Raise (KeyError "time") s
              end.
Proof.
  induction l as [|x rest IH]; [done|].
  simpl. munfold. destruct (a_time x) as [k|]; [|done].
  rewrite IH. by destruct (keys_of rest).
Qed.

Lemma sorted_eq l s :
  sorted l s = match sort_log l with
               | Some acts => Return acts s
               | None => Raise (KeyError "time") s
               end.
Proof.
  unfold sorted, sort_log. munfold. rewrite keyed_eq.
  by destruct (keys_of l).
Qed.

Lemma keys_of_None l : keys_of l = None ↔ ∃ a, a ∈ l ∧ a_time a = None.
Proof.
  induction l as [|x rest IH]; simpl.
  - split; [done|]. by intros (a & ?%elem_of_nil & _).
  - destruct (a_time x) as [k|] eqn:Hk.
    + destruct (keys_of rest) as [ks|].
      * split; [done|]. intros (a & [->|Ha]%elem_of_cons & Hnone); [congruence|].
        destruct IH as [_ IH]. discriminate IH. eauto.
      * split; [|done]. intros _. destruct IH as [IH _].
        destruct (IH eq_refl) as (a & ? & ?). exists a. split; [by right|done].
    + split; [|done]. intros _. exists x. split; [left|done].
Qed.

Lemma keys_of_Some l ks :
  keys_of l = Some ks →
  snd <$> ks = l ∧ Forall (λ ka, a_time ka.2 = Some ka.1) ks.
Proof.
  revert ks. induction l as [|x rest IH]; intros ks H; simpl in H.
  { by simplify_eq. }
  destruct (a_time x) as [k|] eqn:Hk; [|done].
  destruct (keys_of rest) as [ks'|]; [|done]. simplify_eq.
  destruct (IH ks' eq_refl) as [<- ?]. split; [done|]. by constructor.
Qed.

Lemma insert_by_key_perm x l : insert_by_key x l ≡ₚ x :: l.
Proof.
  induction l as [|y l IH]; [done|]. simpl.
  destruct (x.1 <=? y.1); [done|]. rewrite IH. apply Permutation_swap.
Qed.

Lemma sort_by_key_perm l : sort_by_key l ≡ₚ l.
Proof.
  induction l as [|x l IH]; [done|]. simpl.
  rewrite insert_by_key_perm. by rewrite IH.
Qed.

(** The driver visits exactly the records of the log, each with a time. *)
Lemma sort_log_Some l acts :
  sort_log l = Some acts →
  acts ≡ₚ l ∧ ∀ a, a ∈ l → is_Some (a_time a).
Proof.
  unfold sort_log. destruct (keys_of l) as [ks|] eqn:Hks; [|done].
  intros [= <-]. destruct (keys_of_Some _ _ Hks) as [<- Hall]. split.
  - by rewrite sort_by_key_perm.
  - intros a (ka & -> & Hka)%list_elem_of_fmap.
    rewrite Forall_forall in Hall. rewrite (Hall _ Hka). eauto.
Qed.

(** ** The report *)

(** The sweep for undelivered packages that ends [validate_solution]. *)
Definition swept (order : set_order) (s : state) : state :=
  let undelivered := dom (packages s) ∖ delivered_packages s in
  let s1 := set_undelivered_penalty (Z.of_nat (size undelivered) * 100) s in
  if decide (undelivered ≠ ∅)
  then set_errors (errors s1 ++ [UndeliveredPackages (order undelivered)])%list s1
  else s1.

(** The report [calculate_score] builds from a state. *)
Definition report_of (s : state) : report :=
  {| r_score := completion_time s + undelivered_penalty s + invalid_action_penalty s;
     r_components :=
       {| r_completion_time := completion_time s;
          r_undelivered_penalty := undelivered_penalty s;
          r_invalid_action_penalty := invalid_action_penalty s |};
     r_errors := errors s;
     r_warnings := warnings s;
     r_delivered_packages := Z.of_nat (size (delivered_packages s));
     r_total_packages := Z.of_nat (size (packages s));
     r_is_valid := bool_decide (length (errors s) = 0%nat) |}.

Lemma calculate_score_eq s : calculate_score s = Return (report_of s) s.
Proof. done. Qed.

(** The state in which a run over readable documents ends. *)
Definition final (order : set_order) (prob : problem) (log acts : list action) : state :=
  swept order (replay acts (initial prob log)).

Lemma bind_eq {A B} (m : M A) (f : A → M B) s :
  (m ≫= f) s = match m s with
               | Return a s' => f a s'
               | Raise e s' => Raise e s'
               end.
Proof. done. Qed.

Lemma validate_and_score_eq order prob log :
  validate_and_score order (Loaded prob) (Loaded log) __init__ =
  match sort_log log with
  | Some acts => Return (report_of (final order prob log acts)) (final order prob log acts)
  | None => Raise (KeyError "time") (initial prob log)
  end.
Proof.
  unfold validate_and_score, validate_solution.
  rewrite !bind_eq, load_data_loaded. cbn [negb].
  rewrite !bind_eq, initialize_tracking_returns.
  rewrite !bind_eq. unfold get at 1.
  rewrite (fresh_output _ _ _ (initial_fresh prob log)).
  rewrite bind_eq. unfold mret at 1, M_ret at 1. rewrite bind_eq, sorted_eq.
  destruct (sort_log log) as [acts|]; [|done].
  rewrite bind_eq, for_each_try_action.
  unfold final, swept. munfold. simpl. by case_decide.
Qed.

Lemma main_eq order prob log :
  main order (Loaded prob) (Loaded log) =
  match sort_log log with
  | Some acts =>
      let r := report_of (final order prob log acts) in
      {| stdout := Some r;
         exit_code := if negb (r_is_valid r) then 1 else 0;
         traceback := None |}
  | None => {| stdout := None; exit_code := 1; traceback := Some (KeyError "time") |}
  end.
Proof.
  unfold main. rewrite validate_and_score_eq. by destruct (sort_log log).
Qed.

(** ** The clock and the penalty counter *)

Lemma effect_clock s s' :
  effect s s' →
  completion_time s' = completion_time s ∧
  invalid_action_penalty s ≤ invalid_action_penalty s'.
Proof. destruct 1; simpl; lia. Qed.

Lemma effects_clock s s' :
  rtc effect s s' →
  completion_time s' = completion_time s ∧
  invalid_action_penalty s ≤ invalid_action_penalty s'.
Proof.
  induction 1 as [|s1 s2 s3 H12 _ IH]; [lia|].
  apply effect_clock in H12. lia.
Qed.

Lemma tick_clock t s :
  completion_time (tick t s) = Z.max t (completion_time s) ∧
  invalid_action_penalty (tick t s) = invalid_action_penalty s.
Proof. unfold tick. destruct (Z.gtb_spec t (completion_time s)); simpl; lia. Qed.

(** An iteration never lowers the penalty, and leaves it alone only when it
    has advanced the clock to the record's time. *)
Lemma try_action_clock a s :
  invalid_action_penalty s ≤ invalid_action_penalty (exec (try_action a) s) ∧
  (invalid_action_penalty (exec (try_action a) s) = invalid_action_penalty s →
   ∃ t, a_time a = Some t ∧
        completion_time (exec (try_action a) s) = Z.max t (completion_time s)).
Proof.
  destruct (try_action_spec a s) as [[msg ->]|(t & Ht & H)].
  - simpl. split; [lia|]. intros ?. lia.
  - apply effects_clock in H as [Hct Hpen].
    destruct (tick_clock t s) as [Hct' Hpen']. split; [lia|].
    intros _. exists t. split; [done|]. lia.
Qed.

Lemma replay_penalty_mono acts s :
  invalid_action_penalty s ≤ invalid_action_penalty (replay acts s).
Proof.
  revert s. induction acts as [|a acts IH]; intros s; [done|].
  rewrite replay_cons. specialize (IH (exec (try_action a) s)).
  destruct (try_action_clock a s) as [? _]. lia.
Qed.

Lemma replay_clock acts s :
  invalid_action_penalty (replay acts s) = invalid_action_penalty s →
  completion_time s ≤ completion_time (replay acts s) ∧
  (∀ a, a ∈ acts → ∃ t, a_time a = Some t ∧ t ≤ completion_time (replay acts s)) ∧
  (completion_time (replay acts s) = completion_time s ∨
   ∃ a, a ∈ acts ∧ a_time a = Some (completion_time (replay acts s))).
Proof.
  revert s. induction acts as [|a acts IH]; intros s Hpen.
  { split; [done|]. split; [by intros a ?%elem_of_nil|by left]. }
  rewrite replay_cons in *.
  destruct (try_action_clock a s) as [Hmono Hsame].
  pose proof (replay_penalty_mono acts (exec (try_action a) s)) as Hmono'.
  destruct Hsame as (t & Ht & Hct); [lia|].
  destruct (IH (exec (try_action a) s)) as (Hle & Hall & Hmax); [lia|].
  split; [lia|]. split.
  - intros b [->|Hb]%elem_of_cons; [|by apply Hall].
    exists t. split; [done|lia].
  - destruct Hmax as [Heq|(b & Hb & Hbt)].
    + destruct (Z.max_spec t (completion_time s)) as [[_ Hm]|[_ Hm]].
      * left. lia.
      * right. exists a. split; [left|]. rewrite Ht. f_equal. lia.
    + right. exists b. split; [by right|done].
Qed.

(** ** Delivered packages *)

(** A package in the delivered set has status [delivered]. *)
Definition delivered_inv (s : state) : Prop :=
  ∀ p, p ∈ delivered_packages s → status_of s p = Some delivered.

Lemma effect_delivered_inv s s' :
  carry_inv s → delivered_inv s → effect s s' → delivered_inv s'.
Proof.
  unfold delivered_inv, status_of. intros Hcarry Hinv Heff.
  destruct Heff as [msg|cid q pkg e l Hpkg He Hste Hl
                   |cid lid q e l l' c Hl Hq Hl' He Hc
                   |cid lid t q e l l' pkg Hl Hq Hl' He Hpkg|cid pos];
    simpl; try done; intros p Hp.
  - destruct (decide (q = p)) as [->|Hne]; [|by rewrite lookup_insert_ne; auto].
    specialize (Hinv p Hp). rewrite He in Hinv. simpl in Hinv. congruence.
  - destruct (decide (q = p)) as [->|Hne]; [|by rewrite lookup_insert_ne; auto].
    destruct (carry_inv_status _ _ _ _ _ Hcarry Hl Hq He) as [Hst _].
    specialize (Hinv p Hp). rewrite He in Hinv. simpl in Hinv. congruence.
  - destruct (decide (q = p)) as [->|Hne]; [by rewrite lookup_insert_eq|].
    rewrite lookup_insert_ne by done. apply Hinv.
    apply elem_of_union in Hp as [Hp%elem_of_singleton|Hp]; [congruence|done].
Qed.

Lemma steps_delivered_inv s s' :
  carry_inv s → delivered_inv s → rtc step s s' → delivered_inv s'.
Proof.
  intros Hcarry Hinv H. induction H as [|s1 s2 s3 H12 _ IH]; [done|].
  apply IH; [by eapply step_carry_inv|].
  destruct H12 as [s2 Heff|t _]; [by eapply effect_delivered_inv|done].
Qed.

Lemma initial_delivered_inv prob log : delivered_inv (initial prob log).
Proof.
  intros p. rewrite (fresh_delivered _ _ _ (initial_fresh prob log)).
  by intros ?%not_elem_of_empty.
Qed.

(** * Concrete runs

    The instance of the first test scenario: warehouse [W1] at (0,0),
    package point [P1] at (1,0) with capacity 1, destination [D1] at (2,0);
    courier [C1] with capacity 1 starting at [W1]; package [PKG1] from [W1]
    to [D1], arriving at time 0.  The declared grid is 3 by 1. *)
Module Scenario.

Definition W1 : location := Location "W1" "warehouse" (0, 0) None.
Definition P1 : location := Location "P1" "package_point" (1, 0) (Some 1).
Definition D1 : location := Location "D1" "destination" (2, 0) None.

Definition problem1 : problem :=
  {| map_dimensions := (3, 1);
     map_locations := [W1; P1; D1];
     in_couriers := [Courier "C1" "W1" 1];
     in_packages := [Package "PKG1" "W1" "D1" 0] |}.

(** The same instance with a second package. *)
Definition problem2 : problem :=
  {| map_dimensions := (3, 1);
     map_locations := [W1; P1; D1];
     in_couriers := [Courier "C1" "W1" 1];
     in_packages := [Package "PKG1" "W1" "D1" 0; Package "PKG2" "W1" "D1" 0] |}.

Definition pick_up (t : Z) (c l : string) (ps : list string) : action :=
  Action (Some t) (Some c) (Some "pick_up") (Some l) None None (Some ps).
Definition drop_off (t : Z) (c l : string) (ps : list string) : action :=
  Action (Some t) (Some c) (Some "drop_off") (Some l) None None (Some ps).
Definition deliver (t : Z) (c l : string) (ps : list string) : action :=
  Action (Some t) (Some c) (Some "deliver") (Some l) None None (Some ps).
Definition move (t : Z) (c : string) (from_pos to_pos : coord) (ps : list string) : action :=
  Action (Some t) (Some c) (Some "move") None (Some from_pos) (Some to_pos) (Some ps).

(** The correctly constructed log of the scenario. *)
Definition direct_log : list action :=
  [ pick_up 0 "C1" "W1" ["PKG1"];
    move 1 "C1" (0, 0) (1, 0) ["PKG1"];
    move 2 "C1" (1, 0) (2, 0) ["PKG1"];
    deliver 3 "C1" "D1" ["PKG1"] ].

(** The courier stages the package at [P1]. *)
Definition staging_log : list action :=
  [ pick_up 0 "C1" "W1" ["PKG1"];
    move 1 "C1" (0, 0) (1, 0) ["PKG1"];
    drop_off 2 "C1" "P1" ["PKG1"] ].

(** A record without ["time"]. *)
Definition untimed_wait : action :=
  Action None (Some "C1") (Some "wait") None None None None.

(** The correct log followed by that record. *)
Definition untimed_log : list action := (direct_log ++ [untimed_wait])%list.

(** Two iteration orders of the same set: an enumeration and its reverse. *)
Definition ascending : set_order :=
  {| iterate := elements; iterate_perm := λ X, reflexivity (elements X) |}.

Definition descending : set_order :=
  {| iterate := λ X, reverse (elements X);
     iterate_perm := λ X, reverse_Permutation (elements X) |}.

End Scenario.

(** * The claims *)

Lemma replay_carry_inv prob log acts : carry_inv (replay acts (initial prob log)).
Proof. eapply steps_carry_inv; [apply initial_carry_inv|apply replay_steps]. Qed.

Lemma replay_delivered_inv prob log acts : delivered_inv (replay acts (initial prob log)).
Proof.
  eapply steps_delivered_inv;
    [apply initial_carry_inv|apply initial_delivered_inv|apply replay_steps].
Qed.

(** C1 (as the code has it).  Between any two points of a replay the status
    of a package moves along the graph
    at_warehouse → with_courier → {at_package_point | delivered},
    and both at_package_point and delivered are final: a package that rests
    at a package point keeps that status through every later action and never
    enters the delivered set. *)
Theorem status_follows_graph prob log acts more p st :
  status_of (replay acts (initial prob log)) p = Some st →
  ∃ st', status_of (replay (acts ++ more) (initial prob log)) p = Some st' ∧
         rtc edge st st' ∧
         (st = at_package_point →
          st' = at_package_point ∧
          p ∉ delivered_packages (replay (acts ++ more) (initial prob log))).
Proof.
  intros Hst. rewrite replay_app.
  destruct (steps_status _ (replay more (replay acts (initial prob log))) p st
              (replay_carry_inv prob log acts) (replay_steps _ _) Hst)
    as (st' & Hst' & Hpath).
  exists st'. split; [done|]. split; [done|]. intros ->.
  assert (st' = at_package_point) as -> by (eapply edge_terminal; eauto).
  split; [done|]. intros Hin.
  pose proof (replay_delivered_inv prob log (acts ++ more) p) as Hdel.
  rewrite replay_app in Hdel. specialize (Hdel Hin). congruence.
Qed.

Lemma status_follows_graph_witness :
  status_of (replay Scenario.staging_log
               (initial Scenario.problem1 Scenario.staging_log)) "PKG1"
    = Some at_package_point ∧
  ∃ st', status_of
           (replay (Scenario.staging_log ++
                      [Scenario.pick_up 3 "C1" "P1" ["PKG1"];
                       Scenario.deliver 4 "C1" "P1" ["PKG1"]])
              (initial Scenario.problem1 Scenario.staging_log)) "PKG1" = Some st' ∧
         rtc edge at_package_point st' ∧
         (at_package_point = at_package_point →
          st' = at_package_point ∧
          "PKG1" ∉ delivered_packages
            (replay (Scenario.staging_log ++
                       [Scenario.pick_up 3 "C1" "P1" ["PKG1"];
                        Scenario.deliver 4 "C1" "P1" ["PKG1"]])
               (initial Scenario.problem1 Scenario.staging_log))).
Proof.
  split; [vm_compute; reflexivity|].
  apply (status_follows_graph Scenario.problem1 Scenario.staging_log
           Scenario.staging_log
           [Scenario.pick_up 3 "C1" "P1" ["PKG1"];
            Scenario.deliver 4 "C1" "P1" ["PKG1"]] "PKG1" at_package_point).
  vm_compute; reflexivity.
Defined.

(** C1 (as stated) fails: no action takes a package from at_package_point
    back to with_courier, in any replay of any log on any problem. *)
Lemma no_recollection_from_package_point :
  ¬ ∃ prob log acts a p,
      status_of (replay acts (initial prob log)) p = Some at_package_point ∧
      status_of (replay (acts ++ [a]) (initial prob log)) p = Some with_courier.
Proof.
  intros (prob & log & acts & a & p & Hbefore & Hafter).
  rewrite replay_app in Hafter.
  destruct (steps_status _ (replay [a] (replay acts (initial prob log))) p _
              (replay_carry_inv prob log acts) (replay_steps _ _) Hbefore)
    as (st' & Hst' & Hpath).
  rewrite Hafter in Hst'. simplify_eq.
  apply edge_terminal in Hpath; [done|by left].
Qed.

(** The re-collection the claim describes, tried on the scenario: the
    courier stands at [P1] where [PKG1] rests, and its [pick_up] is turned
    down because [P1] is not a warehouse. *)
Example recollection_is_rejected :
  let s := replay Scenario.staging_log
             (initial Scenario.problem1 Scenario.staging_log) in
  exec (try_action (Scenario.pick_up 3 "C1" "P1" ["PKG1"])) s
  = rejected (PickUpNonWarehouse "P1") (tick 3 s).
Proof. vm_compute. reflexivity. Qed.

(** What a run prints and returns when a document cannot be loaded. *)
Definition load_failure (reason : string) : process :=
  {| stdout :=
       Some {| r_score := 0;
               r_components := {| r_completion_time := 0;
                                  r_undelivered_penalty := 0;
                                  r_invalid_action_penalty := 0 |};
               r_errors := [ErrorLoadingFiles reason];
               r_warnings := [];
               r_delivered_packages := 0;
               r_total_packages := 0;
               r_is_valid := false |};
     exit_code := 1;
     traceback := None |}.

(** C2 (as the code has it).  When either document cannot be loaded,
    [validate_and_score] still calls [calculate_score]: the run prints a
    report whose score and components are all 0, whose error list is the
    single load error and whose validity flag is false, and exits with
    code 1. *)
Theorem load_failure_prints_report order :
  (∀ reason output_file, main order (Unreadable reason) output_file = load_failure reason) ∧
  (∀ prob reason, main order (Loaded prob) (Unreadable reason) = load_failure reason).
Proof. split; reflexivity. Qed.

(** C2 (as stated) fails: with a missing problem file the run does emit a
    report body, with score 0. *)
Lemma load_failure_has_report_body :
  r_score <$> stdout (main Scenario.ascending (Unreadable "No such file or directory")
                           (Loaded Scenario.direct_log))
  = Some 0.
Proof. reflexivity. Qed.

(** C3: a record without ["time"] makes the key function of [sorted] raise
    outside the driver's [try]: the run ends with the uncaught [KeyError],
    nothing is printed and no error is recorded for the record. *)
Theorem missing_time_aborts_run order prob log a :
  a ∈ log → a_time a = None →
  main order (Loaded prob) (Loaded log)
  = {| stdout := None; exit_code := 1; traceback := Some (KeyError "time") |}.
Proof.
  intros Ha Hnone. rewrite main_eq. unfold sort_log.
  assert (keys_of log = None) as -> by (apply keys_of_None; eauto).
  done.
Qed.

Lemma missing_time_aborts_run_witness :
  Scenario.untimed_wait ∈ Scenario.untimed_log ∧
  a_time Scenario.untimed_wait = None ∧
  main Scenario.ascending (Loaded Scenario.problem1) (Loaded Scenario.untimed_log)
  = {| stdout := None; exit_code := 1; traceback := Some (KeyError "time") |}.
Proof.
  assert (Scenario.untimed_wait ∈ Scenario.untimed_log)
    as Hin by (apply elem_of_app; right; left).
  split; [exact Hin|]. split; [reflexivity|].
  exact (missing_time_aborts_run Scenario.ascending Scenario.problem1 _ _
           Hin eq_refl).
Defined.

(** The other required keys behave as C3 says: inside the [try], a record
    with a time but no ["courier"] or no ["action"] costs one error and 10
    units, and the loop goes on. *)
Lemma missing_courier_is_penalized a s t :
  a_time a = Some t → a_courier a = None →
  try_action a s = Return tt (rejected (MissingRequiredField "courier") s).
Proof.
  intros Ht Hc. unfold try_action, process_action. rewrite !bind_eq, Ht, Hc. done.
Qed.

Lemma missing_action_is_penalized a s t c :
  a_time a = Some t → a_courier a = Some c → a_action a = None →
  try_action a s = Return tt (rejected (MissingRequiredField "action") s).
Proof.
  intros Ht Hc Ha. unfold try_action, process_action.
  rewrite !bind_eq, Ht. simpl. rewrite !bind_eq, Hc. simpl.
  rewrite !bind_eq, Ha. done.
Qed.

(** Two messages that differ at most in the order in which the undelivered
    summary lists its ids. *)
Definition similar_message (m1 m2 : message) : Prop :=
  match m1, m2 with
  | UndeliveredPackages ids1, UndeliveredPackages ids2 => ids1 ≡ₚ ids2
  | _, _ => m1 = m2
  end.

Record similar_report (r1 r2 : report) : Prop := {
  similar_score : r_score r1 = r_score r2;
  similar_components : r_components r1 = r_components r2;
  similar_errors : Forall2 similar_message (r_errors r1) (r_errors r2);
  similar_warnings : r_warnings r1 = r_warnings r2;
  similar_delivered : r_delivered_packages r1 = r_delivered_packages r2;
  similar_total : r_total_packages r1 = r_total_packages r2;
  similar_valid : r_is_valid r1 = r_is_valid r2
}.

Definition similar_process (p1 p2 : process) : Prop :=
  option_Forall2 similar_report (stdout p1) (stdout p2) ∧
  exit_code p1 = exit_code p2 ∧
  traceback p1 = traceback p2.

Lemma similar_message_refl m : similar_message m m.
Proof. destruct m; simpl; reflexivity. Qed.

Lemma similar_messages_refl ms : Forall2 similar_message ms ms.
Proof. induction ms; constructor; auto using similar_message_refl. Qed.

Lemma similar_report_refl r : similar_report r r.
Proof. split; auto using similar_messages_refl. Qed.

Lemma similar_process_refl p : similar_process p p.
Proof.
  split; [|done]. destruct (stdout p); constructor. apply similar_report_refl.
Qed.

Lemma swept_similar order1 order2 s :
  similar_report (report_of (swept order1 s)) (report_of (swept order2 s)).
Proof.
  unfold swept. cbv zeta. case_decide; [|apply similar_report_refl].
  split; simpl; try done.
  - apply Forall2_app; [apply similar_messages_refl|].
    constructor; [|constructor]. simpl.
    by rewrite !iterate_perm.
  - by rewrite !length_app.
Qed.

(** C4 (as the code has it).  Two runs on the same two documents agree on
    the exit code, on the score and its components, on the counts, on the
    validity flag and on every entry of the error list, except that the final
    "Undelivered packages" summary lists the same ids in an order that
    follows the iteration order of a Python set of strings. *)
Theorem report_determined_up_to_set_order order1 order2 input_file output_file :
  similar_process (main order1 input_file output_file)
                  (main order2 input_file output_file).
Proof.
  destruct input_file as [reason|prob]; [apply similar_process_refl|].
  destruct output_file as [reason|log]; [apply similar_process_refl|].
  rewrite !main_eq. destruct (sort_log log) as [acts|];
    [|apply similar_process_refl].
  pose proof (swept_similar order1 order2 (replay acts (initial prob log))) as H.
  split; [by constructor|]. split; [|done]. cbv zeta.
  unfold final. by rewrite (similar_valid _ _ H).
Qed.

(** C4 (as stated) fails: with two undelivered packages, two iteration
    orders of the same set give two different error lists. *)
Lemma reports_differ_across_set_orders :
  main Scenario.ascending (Loaded Scenario.problem2) (Loaded [])
  ≠ main Scenario.descending (Loaded Scenario.problem2) (Loaded []).
Proof. vm_compute. discriminate. Qed.

Lemma swept_clock order s :
  completion_time (swept order s) = completion_time s ∧
  invalid_action_penalty (swept order s) = invalid_action_penalty s ∧
  packages (swept order s) = packages s ∧
  delivered_packages (swept order s) = delivered_packages s ∧
  undelivered_penalty (swept order s)
  = Z.of_nat (size (dom (packages s) ∖ delivered_packages s)) * 100.
Proof. unfold swept. cbv zeta. by case_decide. Qed.

(** [m] is the greatest ["time"] of the log. *)
Definition is_max_time (log : list action) (m : Z) : Prop :=
  (∃ a, a ∈ log ∧ a_time a = Some m) ∧
  ∀ a, a ∈ log → ∃ t, a_time a = Some t ∧ t ≤ m.

(** C5.  The report of a run over readable documents prints the validator's
    own three counters: the completion time the replay reached, 100 for
    every package of the problem that is not in the delivered set, and the
    invalid-action penalty the replay accumulated; the score is their sum.
    When a run over a non-empty log with non-negative times ends with both
    penalties at 0, the score is the completion time, which is the greatest
    time of the log. *)
Theorem score_of_penalty_free_run order prob log r s :
  validate_and_score order (Loaded prob) (Loaded log) __init__ = Return r s →
  r_score r = completion_time s + undelivered_penalty s + invalid_action_penalty s ∧
  r_components r
  = {| r_completion_time := completion_time s;
       r_undelivered_penalty := undelivered_penalty s;
       r_invalid_action_penalty := invalid_action_penalty s |} ∧
  r_score r = r_completion_time (r_components r)
              + r_undelivered_penalty (r_components r)
              + r_invalid_action_penalty (r_components r) ∧
  (∃ acts, sort_log log = Some acts ∧
     completion_time s = completion_time (replay acts (initial prob log)) ∧
     invalid_action_penalty s
     = invalid_action_penalty (replay acts (initial prob log)) ∧
     undelivered_penalty s
     = 100 * Z.of_nat (size (dom (packages (replay acts (initial prob log)))
                             ∖ delivered_packages (replay acts (initial prob log))))) ∧
  (r_undelivered_penalty (r_components r) = 0 →
   r_invalid_action_penalty (r_components r) = 0 →
   log ≠ [] →
   (∀ a t, a ∈ log → a_time a = Some t → 0 ≤ t) →
   r_score r = r_completion_time (r_components r) ∧
   r_score r = completion_time s ∧
   is_max_time log (r_completion_time (r_components r))).
Proof.
  rewrite validate_and_score_eq.
  destruct (sort_log log) as [acts|] eqn:Hsort; [|done].
  intros [= <- <-].
  destruct (swept_clock order (replay acts (initial prob log)))
    as (Hct & Hpen & _ & _ & Hund). unfold final in *.
  split; [done|]. split; [done|]. split; [done|]. split.
  { exists acts. split; [done|]. split; [done|]. split; [done|]. lia. }
  simpl. intros Hzero Hinv Hne Hpos. split; [lia|]. split; [lia|].
  destruct (sort_log_Some _ _ Hsort) as [Hperm Htimes].
  rewrite Hct. rewrite Hpen in Hinv.
  pose proof (initial_fresh prob log) as Hf.
  destruct (replay_clock acts (initial prob log)) as (Hle & Hall & Hmax).
  { rewrite Hinv. symmetry. apply Hf. }
  rewrite (fresh_time _ _ _ Hf) in *.
  assert (∀ a, a ∈ log → ∃ t, a_time a = Some t ∧
            t ≤ completion_time (replay acts (initial prob log))) as Hall'.
  { intros a Ha. apply Hall. by rewrite Hperm. }
  split; [|done].
  destruct Hmax as [Hnone|(a & Ha & Hat)].
  - destruct log as [|a0 log']; [done|].
    destruct (Hall' a0) as (t0 & Ht0 & Hle0); [left|].
    exists a0. split; [left|]. rewrite Ht0. f_equal.
    specialize (Hpos a0 t0 (list_elem_of_here _ _) Ht0). lia.
  - exists a. split; [by rewrite <- Hperm|done].
Qed.

Lemma score_of_penalty_free_run_witness :
  let s := final Scenario.ascending Scenario.problem1
             Scenario.direct_log Scenario.direct_log in
  validate_and_score Scenario.ascending (Loaded Scenario.problem1)
    (Loaded Scenario.direct_log) __init__ = Return (report_of s) s ∧
  r_score (report_of s) = 3 ∧
  r_score (report_of s) = r_completion_time (r_components (report_of s)) ∧
  r_score (report_of s) = completion_time s ∧
  is_max_time Scenario.direct_log (r_completion_time (r_components (report_of s))).
Proof.
  assert (validate_and_score Scenario.ascending (Loaded Scenario.problem1)
            (Loaded Scenario.direct_log) __init__
          = Return (report_of (final Scenario.ascending Scenario.problem1
                                 Scenario.direct_log Scenario.direct_log))
                   (final Scenario.ascending Scenario.problem1
                      Scenario.direct_log Scenario.direct_log)) as Hrun
    by (vm_compute; reflexivity).
  cbv zeta. split; [exact Hrun|]. split; [vm_compute; reflexivity|].
  apply (score_of_penalty_free_run _ _ _ _ _ Hrun).
  - vm_compute; reflexivity.
  - vm_compute; reflexivity.
  - discriminate.
  - clear Hrun. intros a t Ha Ht. unfold Scenario.direct_log in Ha.
    repeat (apply elem_of_cons in Ha as [->|Ha];
            [injection Ht as <-; lia|]).
    destruct (proj1 (elem_of_nil a) Ha).
Defined.

(** The score does count the undelivered penalty: two undelivered packages
    and an empty log score 200. *)
Example score_counts_undelivered_packages :
  r_score <$> stdout (main Scenario.ascending (Loaded Scenario.problem2) (Loaded []))
  = Some 200.
Proof. vm_compute. reflexivity. Qed.

Lemma replay_delivered_known prob log acts :
  delivered_known (replay acts (initial prob log)).
Proof.
  eapply steps_delivered_known; [apply initial_delivered_known|apply replay_steps].
Qed.

(** C6 (as the code has it).  The undelivered penalty is
    100 × (total packages − delivered packages), a non-negative multiple of
    100, and it adds nothing to the invalid-action penalty.  When some
    package is undelivered, one summary message naming exactly the
    undelivered ids is appended to the error list (so the run is not valid);
    when none is, the error list is left as the replay made it. *)
Theorem undelivered_penalty_and_summary order prob log r s :
  validate_and_score order (Loaded prob) (Loaded log) __init__ = Return r s →
  r_undelivered_penalty (r_components r)
  = 100 * (r_total_packages r - r_delivered_packages r) ∧
  0 ≤ r_total_packages r - r_delivered_packages r ∧
  ∃ acts, sort_log log = Some acts ∧
    let before := replay acts (initial prob log) in
    let undelivered := dom (packages before) ∖ delivered_packages before in
    r_invalid_action_penalty (r_components r) = invalid_action_penalty before ∧
    (∀ p, p ∈ order undelivered ↔ p ∈ dom (packages before) ∧ p ∉ delivered_packages before) ∧
    r_errors r
    = (errors before ++
       if decide (undelivered = ∅) then []
       else [UndeliveredPackages (order undelivered)])%list ∧
    (undelivered ≠ ∅ → r_is_valid r = false).
Proof.
  rewrite validate_and_score_eq.
  destruct (sort_log log) as [acts|] eqn:Hsort; [|done].
  intros [= <- <-]. unfold final.
  pose proof (replay_delivered_known prob log acts) as Hsub.
  set (before := replay acts (initial prob log)) in *.
  destruct (swept_clock order before) as (_ & Hpen & Hpk & Hdel & Hund).
  unfold delivered_known in Hsub.
  assert (size (delivered_packages before) ≤ size (packages before))%nat as Hle.
  { rewrite <- (size_dom (D := gset string)). by apply subseteq_size. }
  simpl. rewrite Hund, Hpk, Hdel, Hpen.
  rewrite (size_difference _ _ Hsub), size_dom.
  split; [lia|]. split; [lia|].
  exists acts. split; [done|]. cbv zeta. split; [done|]. split.
  - intros p. rewrite iterate_perm, elem_of_elements. apply elem_of_difference.
  - unfold swept. cbv zeta. fold before.
    case_decide as Hne; case_decide as Heq; simpl; try done.
    + split; [done|]. intros _. apply bool_decide_eq_false.
      rewrite length_app. simpl. lia.
    + split; [by rewrite app_nil_r|]. done.
Qed.

Lemma undelivered_penalty_and_summary_witness :
  let s := final Scenario.ascending Scenario.problem2 [] [] in
  validate_and_score Scenario.ascending (Loaded Scenario.problem2) (Loaded [])
    __init__ = Return (report_of s) s ∧
  r_undelivered_penalty (r_components (report_of s)) = 200 ∧
  r_undelivered_penalty (r_components (report_of s))
  = 100 * (r_total_packages (report_of s) - r_delivered_packages (report_of s)).
Proof.
  assert (validate_and_score Scenario.ascending (Loaded Scenario.problem2)
            (Loaded []) __init__
          = Return (report_of (final Scenario.ascending Scenario.problem2 [] []))
                   (final Scenario.ascending Scenario.problem2 [] [])) as Hrun
    by (vm_compute; reflexivity).
  cbv zeta. split; [exact Hrun|]. split; [vm_compute; reflexivity|].
  exact (proj1 (undelivered_penalty_and_summary _ _ _ _ _ Hrun)).
Defined.

(** C6 (as stated) fails: an undelivered package does add an entry to the
    error list, and the run is reported as not valid. *)
Lemma undelivered_package_is_an_error :
  (λ r, (r_errors r, r_is_valid r)) <$>
    stdout (main Scenario.ascending (Loaded Scenario.problem1) (Loaded []))
  = Some ([UndeliveredPackages ["PKG1"]], false).
Proof. vm_compute. reflexivity. Qed.

(** ** Moves *)

(** Chebyshev distance on the grid. *)
Definition chebyshev (a b : coord) : Z :=
  Z.max (Z.abs (b.1 - a.1)) (Z.abs (b.2 - a.2)).

Lemma _is_valid_move_chebyshev from_pos to_pos :
  _is_valid_move from_pos to_pos = true ↔ chebyshev from_pos to_pos = 1.
Proof.
  unfold _is_valid_move, chebyshev. cbv zeta.
  rewrite !andb_true_iff, orb_true_iff, !Z.leb_le, !Z.gtb_lt. lia.
Qed.

(** The three conditions of a legal move. *)
Definition legal_move (courier_pos : option coord) (carrying : list string)
    (from_pos to_pos : coord) (listed : list string) : Prop :=
  courier_pos = Some from_pos ∧
  chebyshev from_pos to_pos = 1 ∧
  (list_to_set listed : gset string) = list_to_set carrying.

(** The state after courier [cid] has stepped to [to_pos]. *)
Definition moved (cid : string) (to_pos : coord) (s : state) : state :=
  set_courier_positions (<[cid := Some to_pos]> (courier_positions s)) s.

Lemma rejected_not_moved msg cid to_pos s : rejected msg s ≠ moved cid to_pos s.
Proof.
  intros H. apply (f_equal (λ s, length (errors s))) in H. simpl in H.
  rewrite length_app in H. simpl in H. lia.
Qed.

Lemma _process_move_legal a time s cid from_pos to_pos pos cur :
  a_courier a = Some cid → a_from a = Some from_pos → a_to a = Some to_pos →
  courier_positions s !! cid = Some pos → courier_packages s !! cid = Some cur →
  legal_move pos cur from_pos to_pos (get_packages a) →
  _process_move a time s = Return tt (moved cid to_pos s).
Proof.
  intros Hc Hf Ht Hpos Hcur (-> & Hstep & Hset). unfold _process_move.
  rewrite !bind_eq, Hc. simpl. rewrite !bind_eq, Hf. simpl.
  rewrite !bind_eq, Ht. simpl. rewrite !bind_eq. simpl. rewrite !bind_eq, Hpos.
  simpl. rewrite decide_False by (by intros []).
  apply _is_valid_move_chebyshev in Hstep. rewrite Hstep. simpl.
  rewrite !bind_eq, Hcur. simpl. unfold set_differs.
  by rewrite bool_decide_eq_false_2 by (by intros []).
Qed.

Lemma _process_move_illegal a time s cid from_pos to_pos pos cur :
  a_courier a = Some cid → a_from a = Some from_pos → a_to a = Some to_pos →
  courier_positions s !! cid = Some pos → courier_packages s !! cid = Some cur →
  ¬ legal_move pos cur from_pos to_pos (get_packages a) →
  ∃ msg, _process_move a time s = Return tt (rejected msg s).
Proof.
  intros Hc Hf Ht Hpos Hcur Hillegal. unfold _process_move.
  rewrite !bind_eq, Hc. simpl. rewrite !bind_eq, Hf. simpl.
  rewrite !bind_eq, Ht. simpl. rewrite !bind_eq. simpl. rewrite !bind_eq, Hpos.
  simpl. case_decide as Hat; [by eexists|]. subst pos.
  destruct (_is_valid_move from_pos to_pos) eqn:Hstep; simpl; [|by eexists].
  apply _is_valid_move_chebyshev in Hstep.
  rewrite !bind_eq, Hcur. simpl. unfold set_differs.
  case_bool_decide as Hset; [by eexists|].
  destruct Hillegal. by split.
Qed.

(** C7.  For a move record of a known courier, the move is applied exactly
    when the courier's stored position is [from], [to] is at Chebyshev
    distance 1 from [from] and the listed packages are set-equal to the
    carried ones; applied, it changes the courier's position to [to] and
    nothing else; otherwise one error and 10 penalty units are recorded and
    the position stays. *)
Theorem move_applied_iff_legal a time s cid from_pos to_pos pos cur :
  a_courier a = Some cid → a_from a = Some from_pos → a_to a = Some to_pos →
  courier_positions s !! cid = Some pos → courier_packages s !! cid = Some cur →
  (_process_move a time s = Return tt (moved cid to_pos s)
   ↔ legal_move pos cur from_pos to_pos (get_packages a)) ∧
  (¬ legal_move pos cur from_pos to_pos (get_packages a) →
   ∃ msg, _process_move a time s = Return tt (rejected msg s) ∧
          errors (rejected msg s) = (errors s ++ [msg])%list ∧
          invalid_action_penalty (rejected msg s) = invalid_action_penalty s + 10 ∧
          courier_positions (rejected msg s) = courier_positions s).
Proof.
  intros Hc Hf Ht Hpos Hcur. split.
  - split; [|by eapply _process_move_legal].
    intros Hmoved.
    destruct (decide (pos = Some from_pos)) as [Hat|Hat];
      [destruct (decide (chebyshev from_pos to_pos = 1)) as [Hstep|Hstep];
       [destruct (decide ((list_to_set (get_packages a) : gset string)
                          = list_to_set cur)) as [Hset|Hset]|]|];
      [done|..];
      (destruct (_process_move_illegal a time s cid from_pos to_pos pos cur)
         as [msg Hrej]; [done..|by intros (? & ? & ?)|]);
      rewrite Hrej in Hmoved;
      apply (f_equal (λ r, match r with Return _ s' | Raise _ s' => s' end))
        in Hmoved;
      by apply rejected_not_moved in Hmoved.
  - intros Hillegal.
    destruct (_process_move_illegal a time s cid from_pos to_pos pos cur)
      as [msg Hrej]; [done..|]. by exists msg.
Qed.

Lemma move_applied_iff_legal_witness :
  let s := replay [Scenario.pick_up 0 "C1" "W1" ["PKG1"]]
             (initial Scenario.problem1 []) in
  let a := Scenario.move 1 "C1" (0, 0) (1, 0) ["PKG1"] in
  a_courier a = Some "C1" ∧ a_from a = Some (0, 0) ∧ a_to a = Some (1, 0) ∧
  courier_positions s !! "C1" = Some (Some (0, 0)) ∧
  courier_packages s !! "C1" = Some ["PKG1"] ∧
  (_process_move a 1 s = Return tt (moved "C1" (1, 0) s)
   ↔ legal_move (Some (0, 0)) ["PKG1"] (0, 0) (1, 0) (get_packages a)).
Proof.
  cbv zeta.
  assert (courier_positions
            (replay [Scenario.pick_up 0 "C1" "W1" ["PKG1"]]
               (initial Scenario.problem1 [])) !! "C1" = Some (Some (0, 0)))
    as Hpos by (vm_compute; reflexivity).
  assert (courier_packages
            (replay [Scenario.pick_up 0 "C1" "W1" ["PKG1"]]
               (initial Scenario.problem1 [])) !! "C1" = Some ["PKG1"])
    as Hcur by (vm_compute; reflexivity).
  repeat (split; [first [reflexivity|assumption]|]).
  exact (proj1 (move_applied_iff_legal
                  (Scenario.move 1 "C1" (0, 0) (1, 0) ["PKG1"]) 1 _ "C1"
                  (0, 0) (1, 0) _ _ eq_refl eq_refl eq_refl Hpos Hcur)).
Defined.

(** ** Dispatch *)

Lemma tick_couriers t s : couriers (tick t s) = couriers s.
Proof. unfold tick. by destruct (t >? completion_time s). Qed.

(** A record with its three common keys, naming a known courier, reaches the
    handler of its action type with the clock advanced. *)
Lemma process_action_drop_off a s t cid :
  a_time a = Some t → a_courier a = Some cid → a_action a = Some "drop_off" →
  cid ∈ dom (couriers s) →
  process_action a s = _process_dropoff a t (tick t s).
Proof.
  intros Ht Hc Ha Hknown. unfold process_action. munfold.
  rewrite Ht, Hc, Ha. rewrite <- (tick_couriers t s) in Hknown. unfold tick in *.
  destruct (t >? completion_time s); simpl;
    by rewrite decide_False by (by intros []).
Qed.

Lemma process_action_move a s t cid :
  a_time a = Some t → a_courier a = Some cid → a_action a = Some "move" →
  cid ∈ dom (couriers s) →
  process_action a s = _process_move a t (tick t s).
Proof.
  intros Ht Hc Ha Hknown. unfold process_action. munfold.
  rewrite Ht, Hc, Ha. rewrite <- (tick_couriers t s) in Hknown. unfold tick in *.
  destruct (t >? completion_time s); simpl;
    by rewrite decide_False by (by intros []).
Qed.

(** What the clock does not touch. *)
Lemma tick_frame t s :
  errors (tick t s) = errors s ∧
  invalid_action_penalty (tick t s) = invalid_action_penalty s ∧
  courier_packages (tick t s) = courier_packages s ∧
  courier_positions (tick t s) = courier_positions s ∧
  package_point_contents (tick t s) = package_point_contents s ∧
  package_status (tick t s) = package_status s ∧
  delivered_packages (tick t s) = delivered_packages s ∧
  locations (tick t s) = locations s ∧
  input_data (tick t s) = input_data s.
Proof. unfold tick. by destruct (t >? completion_time s). Qed.

(** The drop-off handler on a batch too large for the package point: it
    rejects with one message, or raises, and in both cases leaves the state
    as it found it.  When the courier stands at the location it does not
    raise, and the message is the capacity one. *)
Lemma _process_dropoff_over_capacity a t s lid loc cap cur :
  a_location a = Some lid →
  locations s !! lid = Some loc → loc_type loc = "package_point" →
  loc_capacity loc = Some cap → package_point_contents s !! lid = Some cur →
  cap < Z.of_nat (length cur) + Z.of_nat (length (get_packages a)) →
  wp (_process_dropoff a t)
    (λ _ s', ∃ msg, s' = rejected msg s ∧
       (∀ cid d c, a_courier a = Some cid → input_data s = Some d →
          find_coordinates (map_locations d) lid = Some c →
          courier_positions s !! cid = Some (Some c) →
          msg = ExceedingPackagePointCapacity lid))
    (λ _ s', s' = s ∧
       (∀ cid d c, a_courier a = Some cid → input_data s = Some d →
          find_coordinates (map_locations d) lid = Some c →
          courier_positions s !! cid = Some (Some c) → False)) s.
Proof.
  intros Hl Hloc Hty Hcap Hcur Hover. unfold _process_dropoff.
  wp_steps; simplify_eq;
    try (match goal with
         | H : (_ >? _) = false |- _ => apply gtb_false in H; lia
         end);
    try (split; [done|]; intros ??? ????; by simplify_eq);
    try (eexists; split; [done|]; intros ??? ????; by simplify_eq).
Qed.


(** C9.  A drop_off record of a known courier whose batch, added to what
    the package point holds, exceeds the point's capacity costs exactly one
    error and 10 penalty units and moves nothing: the couriers' lists, the
    package points' contents, every package status and the delivered set are
    as before.  When the courier stands at the package point, the error is
    the capacity one. *)
Theorem dropoff_over_capacity_is_rejected a s t cid lid loc cap cur :
  a_time a = Some t → a_courier a = Some cid → a_action a = Some "drop_off" →
  a_location a = Some lid → cid ∈ dom (couriers s) →
  locations s !! lid = Some loc → loc_type loc = "package_point" →
  loc_capacity loc = Some cap → package_point_contents s !! lid = Some cur →
  cap < Z.of_nat (length cur) + Z.of_nat (length (get_packages a)) →
  ∃ msg s',
    try_action a s = Return tt s' ∧
    errors s' = (errors s ++ [msg])%list ∧
    invalid_action_penalty s' = invalid_action_penalty s + 10 ∧
    courier_packages s' = courier_packages s ∧
    package_point_contents s' = package_point_contents s ∧
    package_status s' = package_status s ∧
    delivered_packages s' = delivered_packages s ∧
    (∀ d c, input_data s = Some d →
       find_coordinates (map_locations d) lid = Some c →
       courier_positions s !! cid = Some (Some c) →
       msg = ExceedingPackagePointCapacity lid).
Proof.
  intros Ht Hc Ha Hl Hknown Hloc Hty Hcap Hcur Hover.
  destruct (tick_frame t s) as (He & Hp & Hcp & Hpos & Hpc & Hps & Hd & Hlocs & Hin).
  pose proof (_process_dropoff_over_capacity a t (tick t s) lid loc cap cur) as H.
  rewrite Hlocs, Hpc, Hin, Hpos in H. specialize (H Hl Hloc Hty Hcap Hcur Hover).
  unfold wp in H. unfold try_action.
  rewrite (process_action_drop_off a s t cid) by done.
  destruct (_process_dropoff a t (tick t s)) as [[] s'|e s'].
  - destruct H as (msg & -> & Hmsg).
    exists msg, (rejected msg (tick t s)). simpl.
    rewrite He, Hp, Hcp, Hpc, Hps, Hd. split_and!; try done.
    intros d c ???. by eapply Hmsg.
  - destruct H as [-> Hnot].
    assert (∀ msg, ∃ msg' s',
      reject msg (tick t s) = Return tt s' ∧
      errors s' = (errors s ++ [msg'])%list ∧
      invalid_action_penalty s' = invalid_action_penalty s + 10 ∧
      courier_packages s' = courier_packages s ∧
      package_point_contents s' = package_point_contents s ∧
      package_status s' = package_status s ∧
      delivered_packages s' = delivered_packages s ∧
      (∀ d c, input_data s = Some d →
         find_coordinates (map_locations d) lid = Some c →
         courier_positions s !! cid = Some (Some c) →
         msg' = ExceedingPackagePointCapacity lid)) as Hrej.
    { intros msg. exists msg, (rejected msg (tick t s)). simpl.
      rewrite He, Hp, Hcp, Hpc, Hps, Hd. split_and!; try done.
      intros d c ???. by destruct (Hnot cid d c). }
    destruct e; apply Hrej.
Qed.

Lemma dropoff_over_capacity_is_rejected_witness :
  let s := replay Scenario.staging_log (initial Scenario.problem1 []) in
  let a := Scenario.drop_off 3 "C1" "P1" ["PKG1"] in
  locations s !! "P1" = Some Scenario.P1 ∧
  package_point_contents s !! "P1" = Some ["PKG1"] ∧
  1 < Z.of_nat (length ["PKG1"]) + Z.of_nat (length (get_packages a)) ∧
  ∃ msg s',
    try_action a s = Return tt s' ∧
    errors s' = (errors s ++ [msg])%list ∧
    invalid_action_penalty s' = invalid_action_penalty s + 10 ∧
    courier_packages s' = courier_packages s ∧
    package_point_contents s' = package_point_contents s ∧
    package_status s' = package_status s ∧
    delivered_packages s' = delivered_packages s ∧
    (∀ d c, input_data s = Some d →
       find_coordinates (map_locations d) "P1" = Some c →
       courier_positions s !! "C1" = Some (Some c) →
       msg = ExceedingPackagePointCapacity "P1").
Proof.
  cbv zeta.
  assert (locations (replay Scenario.staging_log (initial Scenario.problem1 []))
            !! "P1" = Some Scenario.P1) as Hloc by (vm_compute; reflexivity).
  assert (package_point_contents
            (replay Scenario.staging_log (initial Scenario.problem1 []))
            !! "P1" = Some ["PKG1"]) as Hcur by (vm_compute; reflexivity).
  assert ("C1" ∈ dom (couriers
            (replay Scenario.staging_log (initial Scenario.problem1 []))))
    as Hknown by (apply elem_of_dom; vm_compute; eauto).
  split; [exact Hloc|]. split; [exact Hcur|]. split; [simpl; lia|].
  apply (dropoff_over_capacity_is_rejected
           (Scenario.drop_off 3 "C1" "P1" ["PKG1"]) _ 3 "C1" "P1"
           Scenario.P1 1 ["PKG1"]);
    first [reflexivity|assumption|simpl; lia].
Defined.

(** The validator with the declared grid replaced by [dims]. *)
Definition with_dimensions (dims : Z * Z) (s : state) : state :=
  set_input_data
    ((λ p, {| map_dimensions := dims; map_locations := map_locations p;
              in_couriers := in_couriers p; in_packages := in_packages p |})
       <$> input_data s) s.

(** [pos] lies on the declared grid. *)
Definition in_grid (dims : Z * Z) (pos : coord) : Prop :=
  0 ≤ pos.1 < dims.1 ∧ 0 ≤ pos.2 < dims.2.

(** C10.  A move record of a known courier that stands at [from], steps to
    a cell at Chebyshev distance 1 and lists what the courier carries is
    applied, whatever grid the problem declares: the outcome is the same for
    every [dims], with no condition tying [to] to the grid. *)
Theorem move_ignores_dimensions dims a s t cid from_pos to_pos cur :
  a_time a = Some t → a_courier a = Some cid → a_action a = Some "move" →
  a_from a = Some from_pos → a_to a = Some to_pos →
  cid ∈ dom (couriers s) →
  courier_positions s !! cid = Some (Some from_pos) →
  courier_packages s !! cid = Some cur →
  chebyshev from_pos to_pos = 1 →
  (list_to_set (get_packages a) : gset string) = list_to_set cur →
  try_action a (with_dimensions dims s)
  = Return tt (moved cid to_pos (tick t (with_dimensions dims s))) ∧
  courier_positions (moved cid to_pos (tick t (with_dimensions dims s))) !! cid
  = Some (Some to_pos) ∧
  errors (moved cid to_pos (tick t (with_dimensions dims s))) = errors s.
Proof.
  intros Ht Hc Ha Hf Hto Hknown Hpos Hcur Hstep Hset.
  destruct (tick_frame t (with_dimensions dims s))
    as (He & _ & Hcp & Hps & _).
  split; [|split].
  - unfold try_action. rewrite (process_action_move a _ t cid) by done.
    assert (_process_move a t (tick t (with_dimensions dims s))
            = Return tt (moved cid to_pos (tick t (with_dimensions dims s))))
      as Hmove.
    { apply (_process_move_legal a t _ cid from_pos to_pos (Some from_pos) cur);
        try done.
      - by rewrite Hps.
      - by rewrite Hcp. }
    by rewrite Hmove.
  - simpl. by rewrite lookup_insert_eq.
  - simpl. by rewrite He.
Qed.

Lemma move_ignores_dimensions_witness :
  let s := initial Scenario.problem1 [] in
  let a := Scenario.move 0 "C1" (0, 0) (-1, -1) [] in
  ¬ in_grid (3, 1) (-1, -1) ∧
  courier_positions s !! "C1" = Some (Some (0, 0)) ∧
  courier_packages s !! "C1" = Some [] ∧
  chebyshev (0, 0) (-1, -1) = 1 ∧
  try_action a (with_dimensions (3, 1) s)
  = Return tt (moved "C1" (-1, -1) (tick 0 (with_dimensions (3, 1) s))) ∧
  courier_positions (moved "C1" (-1, -1) (tick 0 (with_dimensions (3, 1) s))) !! "C1"
  = Some (Some (-1, -1)) ∧
  errors (moved "C1" (-1, -1) (tick 0 (with_dimensions (3, 1) s))) = errors s.
Proof.
  cbv zeta.
  assert (courier_positions (initial Scenario.problem1 []) !! "C1"
          = Some (Some (0, 0))) as Hpos by (vm_compute; reflexivity).
  assert (courier_packages (initial Scenario.problem1 []) !! "C1" = Some [])
    as Hcur by (vm_compute; reflexivity).
  assert ("C1" ∈ dom (couriers (initial Scenario.problem1 [])))
    as Hknown by (apply elem_of_dom; vm_compute; eauto).
  split; [unfold in_grid; simpl; lia|].
  split; [exact Hpos|]. split; [exact Hcur|]. split; [reflexivity|].
  apply (move_ignores_dimensions (3, 1)
           (Scenario.move 0 "C1" (0, 0) (-1, -1) []) _ 0 "C1" (0, 0) (-1, -1) []);
    first [reflexivity|assumption].
Defined.

(** C8.  On a problem whose declared capacities are at least 1, after any
    sequence of records has been replayed (so after each record of any log,
    valid or not) no courier carries more than its capacity and no package
    point holds more than its capacity. *)
Theorem capacities_are_respected prob log acts :
  well_formed prob → within_capacity (replay acts (initial prob log)).
Proof. intros Hwf. by apply replay_capacity, initial_within_capacity. Qed.

Lemma capacities_are_respected_witness :
  well_formed Scenario.problem2 ∧
  within_capacity
    (replay (Scenario.pick_up 0 "C1" "W1" ["PKG1"; "PKG2"] :: Scenario.staging_log)
       (initial Scenario.problem2 [])).
Proof.
  assert (well_formed Scenario.problem2) as Hwf.
  { split; simpl.
    - repeat constructor; simpl; lia.
    - repeat constructor; try discriminate. intros _. exists 1. split; [done|lia]. }
  split; [exact Hwf|].
  exact (capacities_are_respected Scenario.problem2 [] _ Hwf).
Defined.

(** * Further properties of the validator *)

(** ** The gate in front of the handlers *)

(** A record whose courier id is not in [self.couriers] is rejected before
    its action type is looked at: whatever the type and the other keys, the
    clock is advanced to the record's time and the one error recorded is the
    courier one. *)
Theorem unknown_courier_is_rejected a s t cid ty :
  a_time a = Some t → a_courier a = Some cid → a_action a = Some ty →
  cid ∉ dom (couriers s) →
  try_action a s = Return tt (rejected (InvalidCourierID cid) (tick t s)).
Proof.
  intros Ht Hc Ha Hunknown. unfold try_action, process_action. munfold.
  rewrite Ht, Hc, Ha. rewrite <- (tick_couriers t s) in Hunknown.
  unfold tick in *.
  destruct (t >? completion_time s); simpl; by rewrite decide_True by done.
Qed.

Lemma unknown_courier_is_rejected_witness :
  let s := initial Scenario.problem1 [] in
  let a := Scenario.move 7 "C9" (0, 0) (1, 0) [] in
  ("C9" ∉ dom (couriers s)) ∧
  try_action a s = Return tt (rejected (InvalidCourierID "C9") (tick 7 s)).
Proof.
  cbv zeta.
  assert ("C9" ∉ dom (couriers (initial Scenario.problem1 []))) as Hunknown
    by (apply not_elem_of_dom; vm_compute; reflexivity).
  split; [exact Hunknown|].
  exact (unknown_courier_is_rejected (Scenario.move 7 "C9" (0, 0) (1, 0) [])
           _ 7 "C9" "move" eq_refl eq_refl eq_refl Hunknown).
Defined.

(** The five action types the driver dispatches on. *)
Definition action_types : list string :=
  ["pick_up"; "drop_off"; "deliver"; "move"; "wait"].

(** A record of a known courier whose action type is none of the five is
    rejected with one error naming the type. *)
Theorem unknown_action_type_is_rejected a s t cid ty :
  a_time a = Some t → a_courier a = Some cid → a_action a = Some ty →
  cid ∈ dom (couriers s) → ty ∉ action_types →
  try_action a s = Return tt (rejected (InvalidActionType ty) (tick t s)).
Proof.
  intros Ht Hc Ha Hknown Hty. unfold try_action, process_action. munfold.
  rewrite Ht, Hc, Ha. rewrite <- (tick_couriers t s) in Hknown.
  unfold action_types in Hty. rewrite !not_elem_of_cons in Hty.
  destruct Hty as (? & ? & ? & ? & ? & _). unfold tick in *.
  destruct (t >? completion_time s); simpl;
    (rewrite decide_False by (by intros []));
    by rewrite !decide_False by done.
Qed.

Lemma unknown_action_type_is_rejected_witness :
  let s := initial Scenario.problem1 [] in
  let a := Action (Some 2) (Some "C1") (Some "teleport") None None None None in
  ("C1" ∈ dom (couriers s)) ∧ ("teleport" ∉ action_types) ∧
  try_action a s = Return tt (rejected (InvalidActionType "teleport") (tick 2 s)).
Proof.
  cbv zeta.
  assert ("C1" ∈ dom (couriers (initial Scenario.problem1 []))) as Hknown
    by (apply elem_of_dom; vm_compute; eauto).
  assert ("teleport" ∉ action_types) as Hty
    by (unfold action_types; rewrite !not_elem_of_cons;
        split_and!; try discriminate; apply not_elem_of_nil).
  split; [exact Hknown|]. split; [exact Hty|].
  exact (unknown_action_type_is_rejected
           (Action (Some 2) (Some "C1") (Some "teleport") None None None None)
           _ 2 "C1" "teleport" eq_refl eq_refl eq_refl Hknown Hty).
Defined.

(** The location a wait record names, when the driver objects to it: a
    non-empty id that is not a location of the problem. *)
Definition wait_objection (a : action) (s : state) : option string :=
  match a_location a with
  | Some lid => if decide (lid ≠ "" ∧ lid ∉ dom (locations s)) then Some lid else None
  | None => None
  end.

(** A wait record of a known courier only advances the clock, unless it
    names a non-empty location id that does not exist, which costs one
    error.  A wait without location, or with the empty string as location,
    is accepted. *)
Theorem wait_only_checks_its_location a s t cid :
  a_time a = Some t → a_courier a = Some cid → a_action a = Some "wait" →
  cid ∈ dom (couriers s) →
  try_action a s
  = Return tt match wait_objection a s with
              | Some lid => rejected (InvalidLocationWait lid) (tick t s)
              | None => tick t s
              end.
Proof.
  intros Ht Hc Ha Hknown. unfold try_action, process_action, wait_objection.
  munfold. rewrite Ht, Hc, Ha. rewrite <- (tick_couriers t s) in Hknown.
  unfold tick in *.
  destruct (t >? completion_time s); simpl;
    (rewrite decide_False by (by intros []));
    destruct (a_location a) as [lid|]; simpl; try done;
    by case_decide.
Qed.

Lemma wait_only_checks_its_location_witness :
  let s := initial Scenario.problem1 [] in
  let a := Action (Some 4) (Some "C1") (Some "wait") (Some "") None None None in
  ("C1" ∈ dom (couriers s)) ∧
  wait_objection a s = None ∧
  try_action a s
  = Return tt match wait_objection a s with
              | Some lid => rejected (InvalidLocationWait lid) (tick 4 s)
              | None => tick 4 s
              end.
Proof.
  cbv zeta.
  assert ("C1" ∈ dom (couriers (initial Scenario.problem1 []))) as Hknown
    by (apply elem_of_dom; vm_compute; eauto).
  split; [exact Hknown|]. split; [vm_compute; reflexivity|].
  apply (wait_only_checks_its_location
           (Action (Some 4) (Some "C1") (Some "wait") (Some "") None None None)
           (initial Scenario.problem1 []) 4 "C1" eq_refl eq_refl eq_refl Hknown).
Defined.

(** ** The order in which the driver visits the log *)

(** [a] is not later than [b]. *)
Definition time_le (a b : action) : Prop :=
  match a_time a, a_time b with
  | Some x, Some y => x ≤ y
  | _, _ => False
  end.

(** The records of [l] stamped [t], in the order they have in [l]. *)
Definition stamped (t : Z) (l : list action) : list action :=
  filter (λ a, a_time a = Some t) l.

Lemma insert_by_key_sorted x l :
  StronglySorted (λ a b : Z * action, a.1 ≤ b.1) l →
  StronglySorted (λ a b : Z * action, a.1 ≤ b.1) (insert_by_key x l).
Proof.
  induction 1 as [|y l Hsorted IH Hall]; simpl.
  { repeat constructor. }
  destruct (Z.leb_spec x.1 y.1) as [Hle|Hlt].
  - constructor; [by constructor|].
    constructor; [done|]. eapply Forall_impl; [done|]. simpl. lia.
  - constructor; [done|]. rewrite insert_by_key_perm.
    constructor; [lia|done].
Qed.

Lemma sort_by_key_sorted l :
  StronglySorted (λ a b : Z * action, a.1 ≤ b.1) (sort_by_key l).
Proof.
  induction l as [|x l IH]; simpl; [constructor|]. by apply insert_by_key_sorted.
Qed.

Lemma insert_by_key_filter t x l :
  filter (λ ka : Z * action, ka.1 = t) (insert_by_key x l)
  = filter (λ ka : Z * action, ka.1 = t) (x :: l).
Proof.
  induction l as [|y l IH]; [done|]. simpl.
  destruct (Z.leb_spec x.1 y.1) as [Hle|Hlt]; [done|].
  rewrite (filter_cons _ y), IH, !filter_cons.
  repeat case_decide; try done. lia.
Qed.

Lemma sort_by_key_filter t l :
  filter (λ ka : Z * action, ka.1 = t) (sort_by_key l)
  = filter (λ ka : Z * action, ka.1 = t) l.
Proof.
  induction l as [|x l IH]; [done|]. simpl.
  by rewrite insert_by_key_filter, !filter_cons, IH.
Qed.

Lemma stamped_keyed t ks :
  Forall (λ ka : Z * action, a_time ka.2 = Some ka.1) ks →
  stamped t (snd <$> ks) = snd <$> filter (λ ka : Z * action, ka.1 = t) ks.
Proof.
  unfold stamped. induction 1 as [|[k a] ks Hk _ IH]; [done|].
  simpl in Hk. rewrite fmap_cons, !filter_cons, IH. simpl.
  repeat case_decide; try done; congruence.
Qed.

Lemma sorted_keyed ks :
  Forall (λ ka : Z * action, a_time ka.2 = Some ka.1) ks →
  StronglySorted (λ a b : Z * action, a.1 ≤ b.1) ks →
  StronglySorted time_le (snd <$> ks).
Proof.
  intros Hall Hsorted. induction Hsorted as [|[k a] ks Hsorted IH Hle].
  { constructor. }
  apply Forall_cons in Hall as [Hk Hall]. simpl in Hk. rewrite fmap_cons.
  simpl. constructor; [by apply IH|].
  apply Forall_fmap, Forall_forall. intros [k' a'] Hin. simpl.
  rewrite Forall_forall in Hall, Hle.
  specialize (Hall _ Hin). specialize (Hle _ Hin). simpl in *.
  unfold time_le. by rewrite Hk, Hall.
Qed.

(** When every record has a time, the driver visits the records of the log,
    all of them and no other, in ascending order of time, and records with
    the same time in the order they have in the log (the sort is stable). *)
Theorem driver_order_is_stable_by_time log acts :
  sort_log log = Some acts →
  acts ≡ₚ log ∧
  StronglySorted time_le acts ∧
  ∀ t, stamped t acts = stamped t log.
Proof.
  intros Hsort. split; [by apply sort_log_Some|].
  unfold sort_log in Hsort. destruct (keys_of log) as [ks|] eqn:Hks; [|done].
  injection Hsort as <-. destruct (keys_of_Some _ _ Hks) as [<- Hall].
  assert (Forall (λ ka : Z * action, a_time ka.2 = Some ka.1) (sort_by_key ks))
    as Hall' by (by rewrite sort_by_key_perm).
  split.
  - apply sorted_keyed; [done|apply sort_by_key_sorted].
  - intros t. by rewrite !stamped_keyed, sort_by_key_filter.
Qed.

Lemma driver_order_is_stable_by_time_witness :
  let first := Scenario.move 1 "C1" (0, 0) (1, 0) [] in
  let second := Scenario.move 1 "C1" (1, 0) (2, 0) [] in
  let early := Scenario.pick_up 0 "C1" "W1" [] in
  sort_log [first; second; early] = Some [early; first; second] ∧
  [early; first; second] ≡ₚ [first; second; early] ∧
  StronglySorted time_le [early; first; second] ∧
  ∀ t, stamped t [early; first; second] = stamped t [first; second; early].
Proof.
  cbv zeta.
  assert (sort_log [Scenario.move 1 "C1" (0, 0) (1, 0) [];
                    Scenario.move 1 "C1" (1, 0) (2, 0) [];
                    Scenario.pick_up 0 "C1" "W1" []]
          = Some [Scenario.pick_up 0 "C1" "W1" [];
                  Scenario.move 1 "C1" (0, 0) (1, 0) [];
                  Scenario.move 1 "C1" (1, 0) (2, 0) []]) as Hsort
    by reflexivity.
  split; [exact Hsort|].
  exact (driver_order_is_stable_by_time _ _ Hsort).
Defined.

(** ** Errors and penalties *)

(** Ten penalty units for every entry of the error list. *)
Definition penalty_inv (s : state) : Prop :=
  invalid_action_penalty s = 10 * Z.of_nat (length (errors s)).

Lemma step_penalty_inv s s' : penalty_inv s → step s s' → penalty_inv s'.
Proof.
  unfold penalty_inv. intros Hinv [s2 Heff|t _]; [|done].
  destruct Heff; simpl; try done. rewrite length_app. simpl. lia.
Qed.

Lemma steps_penalty_inv s s' : penalty_inv s → rtc step s s' → penalty_inv s'.
Proof. intros Hinv H. induction H; eauto using step_penalty_inv. Qed.

Lemma replay_penalty_inv prob log acts : penalty_inv (replay acts (initial prob log)).
Proof.
  eapply steps_penalty_inv; [|apply replay_steps].
  pose proof (initial_fresh prob log) as Hf. unfold penalty_inv.
  by rewrite (fresh_penalty _ _ _ Hf), (fresh_errors _ _ _ Hf).
Qed.

(** In the report of a run over readable documents, the invalid-action
    penalty is 10 for every entry of the error list other than the final
    undelivered summary, and the three ways of calling a run clean agree:
    the validity flag is set, the error list is empty, both penalties are
    0. *)
Theorem valid_iff_penalty_free order prob log r s :
  validate_and_score order (Loaded prob) (Loaded log) __init__ = Return r s →
  r_invalid_action_penalty (r_components r)
  = 10 * (Z.of_nat (length (r_errors r))
          - if decide (r_undelivered_penalty (r_components r) = 0) then 0 else 1) ∧
  (r_is_valid r = true ↔ r_errors r = []) ∧
  (r_errors r = [] ↔
   r_undelivered_penalty (r_components r) = 0 ∧
   r_invalid_action_penalty (r_components r) = 0).
Proof.
  rewrite validate_and_score_eq.
  destruct (sort_log log) as [acts|] eqn:Hsort; [|done].
  intros [= <- <-]. unfold final.
  pose proof (replay_penalty_inv prob log acts) as Hpen.
  set (before := replay acts (initial prob log)) in *.
  unfold penalty_inv in Hpen. unfold swept. cbv zeta.
  assert (size (dom (packages before) ∖ delivered_packages before) = 0%nat
          ↔ dom (packages before) ∖ delivered_packages before = ∅) as Hsize
    by (rewrite size_empty_iff; apply leibniz_equiv_iff).
  case_decide as Hund; simpl.
  - assert (size (dom (packages before) ∖ delivered_packages before) ≠ 0%nat)
      as Hpos by (by rewrite Hsize).
    rewrite decide_False by lia. rewrite length_app. simpl.
    split; [lia|]. split.
    + rewrite bool_decide_eq_true.
      split; [lia|]. by intros [_ ?]%app_nil.
    + split; [by intros [_ ?]%app_nil|]. lia.
  - apply Hsize in Hund. rewrite Hund. simpl. split; [lia|]. split.
    + rewrite bool_decide_eq_true. apply length_zero_iff_nil.
    + rewrite <- length_zero_iff_nil. lia.
Qed.

Lemma valid_iff_penalty_free_witness :
  let s := final Scenario.ascending Scenario.problem1
             Scenario.staging_log Scenario.staging_log in
  validate_and_score Scenario.ascending (Loaded Scenario.problem1)
    (Loaded Scenario.staging_log) __init__ = Return (report_of s) s ∧
  r_errors (report_of s) = [UndeliveredPackages ["PKG1"]] ∧
  (r_errors (report_of s) = [] ↔
   r_undelivered_penalty (r_components (report_of s)) = 0 ∧
   r_invalid_action_penalty (r_components (report_of s)) = 0).
Proof.
  assert (validate_and_score Scenario.ascending (Loaded Scenario.problem1)
            (Loaded Scenario.staging_log) __init__
          = Return (report_of (final Scenario.ascending Scenario.problem1
                                 Scenario.staging_log Scenario.staging_log))
                   (final Scenario.ascending Scenario.problem1
                      Scenario.staging_log Scenario.staging_log)) as Hrun
    by (vm_compute; reflexivity).
  cbv zeta. split; [exact Hrun|]. split; [vm_compute; reflexivity|].
  exact (proj2 (proj2 (valid_iff_penalty_free _ _ _ _ _ Hrun))).
Defined.

(** ** Where the packages are *)

Lemma list_remove_other x y l l' :
  list_remove x l = Some l' → y ∈ l → y ≠ x → y ∈ l'.
Proof.
  revert l'. induction l as [|z l IH]; intros l' H Hy Hne; [done|].
  simpl in H. case_decide; simplify_eq/=.
  - apply elem_of_cons in Hy as [?|?]; [done|done].
  - destruct (list_remove x l) as [l0|] eqn:E; simplify_eq/=.
    apply elem_of_cons in Hy as [->|Hy]; [left|right; by apply IH].
Qed.

(** Every package listed at a package point is listed once, has status
    [at_package_point] and names that point as its holder. *)
Definition contents_inv (s : state) : Prop :=
  ∀ lid l, package_point_contents s !! lid = Some l →
    NoDup l ∧
    ∀ p, p ∈ l →
      ∃ e, package_status s !! p = Some e ∧
           ps_status e = at_package_point ∧ ps_location e = lid.

(** [p] is in the list of courier [cid]; [p] is in the contents of [lid]. *)
Definition carried_by (s : state) (p cid : string) : Prop :=
  ∃ l, courier_packages s !! cid = Some l ∧ p ∈ l.

Definition resting_at (s : state) (p lid : string) : Prop :=
  ∃ l, package_point_contents s !! lid = Some l ∧ p ∈ l.

(** A package that has left the warehouse is where its status says. *)
Definition whereabouts (s : state) : Prop :=
  ∀ p e, package_status s !! p = Some e →
    match ps_status e with
    | at_warehouse => True
    | with_courier => carried_by s p (ps_location e)
    | at_package_point => resting_at s p (ps_location e)
    | delivered => p ∈ delivered_packages s
    end.

Lemma contents_inv_status s lid l p e :
  contents_inv s → package_point_contents s !! lid = Some l → p ∈ l →
  package_status s !! p = Some e →
  ps_status e = at_package_point ∧ ps_location e = lid.
Proof.
  intros Hinv Hl Hp He. destruct (Hinv lid l Hl) as [_ H].
  destruct (H p Hp) as (e' & He' & ? & ?). by simplify_eq.
Qed.

(** Changing the status of a package that rests nowhere keeps the
    invariant on the package points. *)
Lemma contents_inv_elsewhere s p e e' :
  contents_inv s → package_status s !! p = Some e →
  ps_status e ≠ at_package_point →
  ∀ lid l, package_point_contents s !! lid = Some l →
    NoDup l ∧
    ∀ q, q ∈ l →
      ∃ e2, <[p := e']> (package_status s) !! q = Some e2 ∧
            ps_status e2 = at_package_point ∧ ps_location e2 = lid.
Proof.
  intros Hinv He Hst lid l Hl. destruct (Hinv lid l Hl) as [Hnd Hmem].
  split; [done|]. intros q Hq.
  assert (q ≠ p).
  { intros ->. by destruct (contents_inv_status _ _ _ _ _ Hinv Hl Hq He). }
  rewrite lookup_insert_ne by done. by apply Hmem.
Qed.

Lemma effect_contents_inv s s' :
  carry_inv s → contents_inv s → effect s s' → contents_inv s'.
Proof.
  intros Hcarry Hinv Heff.
  destruct Heff as [msg|cid p pkg e l Hpkg He Hst Hl
                   |cid lid p e l l' c Hl Hp Hl' He Hc
                   |cid lid t p e l l' pkg Hl Hp Hl' He Hpkg|cid pos]; try done.
  - intros lid2 l2 Hl2. simpl in *.
    eapply contents_inv_elsewhere; eauto. congruence.
  - destruct (carry_inv_status _ _ _ _ _ Hcarry Hl Hp He) as [Hst _].
    intros lid2 l2 Hl2. simpl in *.
    destruct (decide (lid = lid2)) as [<-|Hne].
    + rewrite lookup_insert_eq in Hl2. simplify_eq.
      destruct (Hinv lid c Hc) as [Hnd Hmem].
      assert (p ∉ c) as Hfresh.
      { intros Hin.
        destruct (contents_inv_status _ _ _ _ _ Hinv Hc Hin He). congruence. }
      split.
      * apply NoDup_app. split_and!; [done| |apply NoDup_singleton].
        intros q Hq Hqp%list_elem_of_singleton. by subst q.
      * intros q [Hq|Hqp%list_elem_of_singleton]%elem_of_app; [|subst q].
        -- assert (q ≠ p) by (by intros ->).
           rewrite lookup_insert_ne by done. by apply Hmem.
        -- rewrite lookup_insert_eq. by eexists.
    + rewrite lookup_insert_ne in Hl2 by done.
      eapply contents_inv_elsewhere; eauto. congruence.
  - destruct (carry_inv_status _ _ _ _ _ Hcarry Hl Hp He) as [Hst _].
    intros lid2 l2 Hl2. simpl in *.
    eapply contents_inv_elsewhere; eauto. congruence.
Qed.

Lemma effect_whereabouts s s' : whereabouts s → effect s s' → whereabouts s'.
Proof.
  unfold whereabouts, carried_by, resting_at. intros Hinv Heff.
  destruct Heff as [msg|cid p pkg e l Hpkg He Hst Hl
                   |cid lid p e l l' c Hl Hp Hl' He Hc
                   |cid lid t p e l l' pkg Hl Hp Hl' He Hpkg|cid pos];
    try done; intros q e2 He2; simpl in *.
  - destruct (decide (p = q)) as [<-|Hne].
    + rewrite lookup_insert_eq in He2. simplify_eq/=.
      rewrite lookup_insert_eq. eexists. split; [done|].
      apply elem_of_app. right. left.
    + rewrite lookup_insert_ne in He2 by done. specialize (Hinv q e2 He2).
      destruct (ps_status e2); try done.
      destruct Hinv as (l2 & Hl2 & Hq).
      destruct (decide (cid = ps_location e2)) as [Heq|Hc]; [rewrite <- Heq in *|].
      * rewrite lookup_insert_eq. simplify_eq. eexists. split; [done|].
        apply elem_of_app. by left.
      * rewrite lookup_insert_ne by done. eauto.
  - destruct (decide (p = q)) as [<-|Hne].
    + rewrite lookup_insert_eq in He2. simplify_eq/=.
      rewrite lookup_insert_eq. eexists. split; [done|].
      apply elem_of_app. right. left.
    + rewrite lookup_insert_ne in He2 by done. specialize (Hinv q e2 He2).
      destruct (ps_status e2); try done.
      * destruct Hinv as (l2 & Hl2 & Hq).
        destruct (decide (cid = ps_location e2)) as [Heq|Hc2]; [rewrite <- Heq in *|].
        -- rewrite lookup_insert_eq. simplify_eq. eexists. split; [done|].
           by eapply list_remove_other.
        -- rewrite lookup_insert_ne by done. eauto.
      * destruct Hinv as (l2 & Hl2 & Hq).
        destruct (decide (lid = ps_location e2)) as [Heq|Hc2]; [rewrite <- Heq in *|].
        -- rewrite lookup_insert_eq. simplify_eq. eexists. split; [done|].
           apply elem_of_app. by left.
        -- rewrite lookup_insert_ne by done. eauto.
  - destruct (decide (p = q)) as [<-|Hne].
    + rewrite lookup_insert_eq in He2. simplify_eq/=.
      apply elem_of_union. left. by apply elem_of_singleton.
    + rewrite lookup_insert_ne in He2 by done. specialize (Hinv q e2 He2).
      destruct (ps_status e2); try done.
      * destruct Hinv as (l2 & Hl2 & Hq).
        destruct (decide (cid = ps_location e2)) as [Heq|Hc2]; [rewrite <- Heq in *|].
        -- rewrite lookup_insert_eq. simplify_eq. eexists. split; [done|].
           by eapply list_remove_other.
        -- rewrite lookup_insert_ne by done. eauto.
      * apply elem_of_union. by right.
Qed.

(** The invariants on the packages, together. *)
Definition accounted (s : state) : Prop :=
  carry_inv s ∧ contents_inv s ∧ whereabouts s ∧ delivered_inv s.

Lemma step_accounted s s' : accounted s → step s s' → accounted s'.
Proof.
  intros (Hcarry & Hcont & Hwhere & Hdel) [s2 Heff|t _]; [|done].
  split_and!; eauto using effect_carry_inv, effect_contents_inv,
    effect_whereabouts, effect_delivered_inv.
Qed.

Lemma steps_accounted s s' : accounted s → rtc step s s' → accounted s'.
Proof. intros Hinv H. induction H; eauto using step_accounted. Qed.

Lemma initial_accounted prob log : accounted (initial prob log).
Proof.
  pose proof (initial_fresh prob log) as Hf.
  split_and!; [apply initial_carry_inv| | |apply initial_delivered_inv].
  - intros lid l Hl. rewrite (fresh_contents _ _ _ Hf _ _ Hl).
    split; [constructor|]. by intros p ?%elem_of_nil.
  - intros p e He. by rewrite (fresh_status _ _ _ Hf _ _ He).
Qed.

(** At every point of a replay, every package is in exactly one place, the
    one its status names: at the warehouse it is in no courier's list, at no
    package point and not delivered; with a courier it is in the list of its
    holder and of no other courier; at a package point it is in the contents
    of its holder and of no other point; delivered it is in the delivered set
    and nowhere else. *)
Theorem every_package_is_in_one_place prob log acts p e :
  package_status (replay acts (initial prob log)) !! p = Some e →
  (∀ cid, carried_by (replay acts (initial prob log)) p cid
          ↔ ps_status e = with_courier ∧ cid = ps_location e) ∧
  (∀ lid, resting_at (replay acts (initial prob log)) p lid
          ↔ ps_status e = at_package_point ∧ lid = ps_location e) ∧
  (p ∈ delivered_packages (replay acts (initial prob log))
   ↔ ps_status e = delivered).
Proof.
  intros He.
  destruct (steps_accounted _ _ (initial_accounted prob log)
              (replay_steps acts (initial prob log)))
    as (Hcarry & Hcont & Hwhere & Hdel).
  set (s := replay acts (initial prob log)) in *.
  specialize (Hwhere p e He). split_and!.
  - intros cid. split.
    + intros (l & Hl & Hp).
      by destruct (carry_inv_status _ _ _ _ _ Hcarry Hl Hp He).
    + intros [Hst ->]. by rewrite Hst in Hwhere.
  - intros lid. split.
    + intros (l & Hl & Hp).
      by destruct (contents_inv_status _ _ _ _ _ Hcont Hl Hp He).
    + intros [Hst ->]. by rewrite Hst in Hwhere.
  - split.
    + intros Hin. specialize (Hdel p Hin). unfold status_of in Hdel.
      rewrite He in Hdel. by injection Hdel.
    + intros Hst. by rewrite Hst in Hwhere.
Qed.

Lemma every_package_is_in_one_place_witness :
  let s := replay Scenario.staging_log (initial Scenario.problem1 []) in
  let e := {| ps_status := at_package_point; ps_location := "P1";
              ps_arrival_time := 0; ps_delivery_time := None |} in
  package_status s !! "PKG1" = Some e ∧
  (∀ cid, carried_by s "PKG1" cid
          ↔ ps_status e = with_courier ∧ cid = ps_location e) ∧
  (∀ lid, resting_at s "PKG1" lid
          ↔ ps_status e = at_package_point ∧ lid = ps_location e) ∧
  ("PKG1" ∈ delivered_packages s ↔ ps_status e = delivered).
Proof.
  cbv zeta.
  assert (package_status
            (replay Scenario.staging_log (initial Scenario.problem1 []))
            !! "PKG1"
          = Some {| ps_status := at_package_point; ps_location := "P1";
                    ps_arrival_time := 0; ps_delivery_time := None |}) as He
    by (vm_compute; reflexivity).
  split; [exact He|].
  exact (every_package_is_in_one_place Scenario.problem1 []
           Scenario.staging_log "PKG1" _ He).
Defined.

(** ** The completion time *)

(** What one record does to the clock: a record with its three common keys
    raises it to its time, any other record leaves it. *)
Definition clock_of (a : action) (m : Z) : Z :=
  match a_time a, a_courier a, a_action a with
  | Some t, Some _, Some _ => Z.max t m
  | _, _, _ => m
  end.

Lemma process_action_clock a s :
  always (process_action a)
    (λ s', completion_time s' = clock_of a (completion_time s)) s.
Proof.
  unfold process_action, clock_of. wp_steps;
    repeat match goal with H : _ = Some _ |- _ => rewrite H | H : _ = None |- _ => rewrite H end;
    try done;
    lazymatch goal with
    | H : (?v >? completion_time s) = _ |- _ =>
        assert (rtc effect (tick v s) (tick v s)) as Ht by apply rtc_refl;
        destruct (tick_clock v s) as [Hmax _];
        unfold tick at 2 in Ht; rewrite H in Ht;
        lazymatch goal with
        | |- wp _ _ _ _ =>
            eapply wp_mono;
            [lazymatch goal with
             | |- wp (_process_pickup _ _) _ _ _ => apply _process_pickup_effects, Ht
             | |- wp (_process_dropoff _ _) _ _ _ => apply _process_dropoff_effects, Ht
             | |- wp (_process_deliver _ _) _ _ _ => apply _process_deliver_effects, Ht
             | |- wp (_process_move _ _) _ _ _ => apply _process_move_effects, Ht
             end
            |intros ? ? [Hct _]%effects_clock; by rewrite Hct
            |intros ? ? [Hct _]%effects_clock; by rewrite Hct]
        | |- _ =>
            first [ apply effects_clock in Ht as [Hct _]; by rewrite <- Hmax, <- Hct
                  | pose proof (reject_effects _ _ (InvalidCourierID "") Ht) as Hr;
                    apply effects_clock in Ht as [Hct _]; simpl; by rewrite <- Hmax, <- Hct ]
        end
    end.
Qed.

Lemma try_action_completion_time a s :
  completion_time (exec (try_action a) s) = clock_of a (completion_time s).
Proof.
  pose proof (process_action_clock a s) as H. unfold always, wp in H.
  unfold exec, try_action.
  destruct (process_action a s) as [[] s'|e s']; [done|]. by destruct e.
Qed.

(** The completion time after a replay is the greatest time among the
    records that have a time, a courier and an action type, accepted or
    rejected, and the time the replay started with.  A record without
    courier or action type does not count. *)
Theorem completion_time_counts_every_record acts s :
  completion_time (replay acts s) = foldl (λ m a, clock_of a m) (completion_time s) acts.
Proof.
  revert s. induction acts as [|a acts IH]; intros s; [done|].
  rewrite replay_cons, IH. simpl. by rewrite try_action_completion_time.
Qed.

(** ** Invariants that depend on the record's time *)

Section invariant.
Variable I : state → Prop.
Hypothesis I_reject : ∀ s msg, I s → I (rejected msg s).
Hypothesis I_tick : ∀ s t, I s → completion_time s < t → I (set_completion_time t s).
Hypothesis I_move : ∀ s cid from_pos to_pos,
  I s → courier_positions s !! cid = Some (Some from_pos) →
  _is_valid_move from_pos to_pos = true →
  I (moved cid to_pos s).
Hypothesis I_pickup : ∀ s cid lid t ps,
  I s → t ≤ completion_time s → is_Some (courier_packages s !! cid) →
  always (for_each ps (pickup_package cid lid t)) I s.
Hypothesis I_dropoff : ∀ s cid lid ps,
  I s → is_Some (package_point_contents s !! lid) →
  always (for_each ps (dropoff_package cid lid)) I s.
Hypothesis I_deliver : ∀ s cid lid t ps,
  I s → t ≤ completion_time s →
  always (for_each ps (deliver_package cid lid t)) I s.

Lemma I_ticked s t : I s → I (tick t s) ∧ t ≤ completion_time (tick t s).
Proof.
  intros Hs. destruct (tick_clock t s) as [Hmax _]. split; [|lia].
  unfold tick. destruct (Z.gtb_spec t (completion_time s)); auto.
Qed.

Lemma process_action_invariant a s : I s → always (process_action a) I s.
Proof.
  intros Hs.
  unfold process_action, _process_pickup, _process_dropoff, _process_deliver,
    _process_move.
  wp_steps; try done;
    lazymatch goal with
    | H : (?v >? completion_time s) = _ |- _ =>
        destruct (I_ticked s v Hs) as [Ht Hle];
        unfold tick in Ht, Hle; rewrite H in Ht, Hle
    end;
    first [ by apply I_reject
          | eapply I_move; [done| |by apply negb_false_iff]; by simplify_eq
          | apply I_pickup; by eauto
          | apply I_dropoff; by eauto
          | by apply I_deliver
          | done ].
Qed.

Lemma try_action_invariant a s : I s → I (exec (try_action a) s).
Proof.
  intros Hs. pose proof (process_action_invariant a s Hs) as H.
  unfold always, wp in H. unfold exec, try_action.
  destruct (process_action a s) as [[] s'|e s']; [done|].
  destruct e; exact (I_reject s' _ H).
Qed.

Lemma replay_invariant acts s : I s → I (replay acts s).
Proof.
  revert s. induction acts as [|a acts IH]; intros s Hs; [done|].
  rewrite replay_cons. by apply IH, try_action_invariant.
Qed.
End invariant.

(** What the status entry [e] of a package [pkg] says about the past, at
    completion time [now]: a package that has left the warehouse had
    arrived; a delivered package is recorded at its declared destination
    with a delivery time that has been reached; no other package has a
    delivery time. *)
Definition record_ok (now : Z) (pkg : package) (e : pkg_state) : Prop :=
  (ps_status e ≠ at_warehouse → pkg_arrival_time pkg ≤ now) ∧
  (ps_status e = delivered →
   ps_location e = pkg_destination pkg ∧
   ∃ t, ps_delivery_time e = Some t ∧ t ≤ now) ∧
  (ps_status e ≠ delivered → ps_delivery_time e = None).

Definition timed_inv (s : state) : Prop :=
  carry_inv s ∧
  ∀ p pkg e, packages s !! p = Some pkg → package_status s !! p = Some e →
    record_ok (completion_time s) pkg e.

Lemma record_ok_later now now' pkg e :
  now ≤ now' → record_ok now pkg e → record_ok now' pkg e.
Proof.
  intros Hle (Harr & Hdel & Hnone). split_and!; [|intros Hst|done].
  - intros Hst. specialize (Harr Hst). lia.
  - destruct (Hdel Hst) as (? & t & ? & ?). split; [done|]. exists t. split; [done|lia].
Qed.

Lemma timed_inv_reject s msg : timed_inv s → timed_inv (rejected msg s).
Proof. done. Qed.

Lemma timed_inv_tick s t :
  timed_inv s → completion_time s < t → timed_inv (set_completion_time t s).
Proof.
  intros [Hcarry Hrec] Hlt. split; [done|]. intros p pkg e Hpkg He. simpl in *.
  eapply record_ok_later; [|by eapply Hrec]. lia.
Qed.

Lemma timed_inv_move s cid to_pos : timed_inv s → timed_inv (moved cid to_pos s).
Proof. done. Qed.

(** One package changes its entry, from a status that had arrived. *)
Lemma timed_inv_update s s' p pkg e e' :
  timed_inv s → effect s s' →
  packages s' = packages s → completion_time s' = completion_time s →
  package_status s' = <[p := e']> (package_status s) →
  packages s !! p = Some pkg → package_status s !! p = Some e →
  record_ok (completion_time s) pkg e' →
  timed_inv s'.
Proof.
  intros [Hcarry Hrec] Heff Hpk Hct Hps Hpkg He Hok.
  split; [by eapply effect_carry_inv|].
  intros q pkg2 e2. rewrite Hpk, Hct, Hps. intros Hpkg2 He2.
  destruct (decide (p = q)) as [<-|Hne].
  - rewrite lookup_insert_eq in He2. by simplify_eq.
  - rewrite lookup_insert_ne in He2 by done. by eapply Hrec.
Qed.

Lemma timed_inv_pickup s cid lid t ps :
  timed_inv s → t ≤ completion_time s → is_Some (courier_packages s !! cid) →
  always (for_each ps (pickup_package cid lid t)) timed_inv s.
Proof.
  intros Hs Ht Hc. unfold always.
  eapply wp_mono; [apply (wp_for_each
    (λ _ s', timed_inv s' ∧ t ≤ completion_time s' ∧
             is_Some (courier_packages s' !! cid))
    (λ _, timed_inv)); [|done]| |]; simpl; [|tauto|done].
  clear. intros p _ s (Hs & Ht & Hc). unfold wp.
  destruct (pickup_package_outcome cid lid t p s Hc)
    as [msg|e|pkg e l Hpkg He Horig Hst Harr Hl]; [done..|].
  assert (effect s (picked cid p e l s)) as Heff by (by econstructor).
  split_and!; [|done|by eapply frame_carried_Some, Hc; apply effect_frame].
  destruct Hs as [Hcarry Hrec].
  destruct (Hrec p pkg e Hpkg He) as (_ & _ & Hnone).
  eapply (timed_inv_update s _ p pkg e); eauto; [by split|].
  split_and!; simpl; [intros _; lia|done|].
  intros _. apply Hnone. congruence.
Qed.

Lemma timed_inv_dropoff s cid lid ps :
  timed_inv s → is_Some (package_point_contents s !! lid) →
  always (for_each ps (dropoff_package cid lid)) timed_inv s.
Proof.
  intros Hs Hc. unfold always.
  eapply wp_mono; [apply (wp_for_each
    (λ _ s', timed_inv s' ∧ is_Some (package_point_contents s' !! lid))
    (λ _, timed_inv)); [|done]| |]; simpl; [|tauto|done].
  clear. intros p _ s (Hs & Hc). unfold wp.
  destruct (dropoff_package_outcome cid lid p s Hc)
    as [msg|e|e l l' c Hl Hp Hl' He Hcont]; [done..|].
  assert (effect s (dropped cid lid p e l' c s)) as Heff by (by econstructor).
  split; [|by eapply frame_contents_Some, Hc; apply effect_frame].
  destruct (Hs) as [Hcarry Hrec].
  destruct (carry_inv_status _ _ _ _ _ Hcarry Hl Hp He) as [Hst _].
  destruct (packages s !! p) as [pkg|] eqn:Hpkg.
  - destruct (Hrec p pkg e Hpkg He) as (Harr & _ & Hnone).
    eapply (timed_inv_update s _ p pkg e); eauto.
    split_and!; simpl; [intros _; apply Harr; congruence|done|].
    intros _. apply Hnone. congruence.
  - split; [by eapply effect_carry_inv|].
    intros q pkg2 e2 Hpkg2 He2. simpl in *.
    assert (p ≠ q) by congruence.
    rewrite lookup_insert_ne in He2 by done. by eapply Hrec.
Qed.

Lemma timed_inv_deliver s cid lid t ps :
  timed_inv s → t ≤ completion_time s →
  always (for_each ps (deliver_package cid lid t)) timed_inv s.
Proof.
  intros Hs Ht. unfold always.
  eapply wp_mono; [apply (wp_for_each
    (λ _ s', timed_inv s' ∧ t ≤ completion_time s') (λ _, timed_inv));
    [|done]| |]; simpl; [|tauto|done].
  clear. intros p _ s (Hs & Ht). unfold wp.
  destruct (deliver_package_outcome cid lid t p s)
    as [msg|e|e l l' pkg Hl Hp Hl' He Hpkg Hdest]; [done..|].
  assert (effect s (handed_over cid lid t p e l' s)) as Heff by (by econstructor).
  split; [|done].
  destruct (Hs) as [Hcarry Hrec].
  destruct (carry_inv_status _ _ _ _ _ Hcarry Hl Hp He) as [Hst _].
  destruct (Hrec p pkg e Hpkg He) as (Harr & _ & _).
  eapply (timed_inv_update s _ p pkg e); eauto.
  split_and!; simpl; [intros _; apply Harr; congruence| |done].
  intros _. split; [done|]. by exists t.
Qed.

Lemma initial_timed_inv prob log : timed_inv (initial prob log).
Proof.
  pose proof (initial_fresh prob log) as Hf.
  split; [apply initial_carry_inv|]. intros p pkg e Hpkg He.
  pose proof (fresh_status _ _ _ Hf _ _ He) as Hst.
  split_and!; [done|congruence|].
  intros _. by eapply fresh_delivery.
Qed.

Lemma replay_timed_inv prob log acts : timed_inv (replay acts (initial prob log)).
Proof.
  apply (replay_invariant timed_inv);
    auto using timed_inv_reject, timed_inv_tick,
      timed_inv_pickup, timed_inv_dropoff, timed_inv_deliver, initial_timed_inv.
Qed.

(** At every point of a replay, a package that has left the warehouse had
    arrived by the completion time reached so far: no pick_up is accepted
    before the package's arrival time. *)
Theorem no_package_leaves_before_it_arrives prob log acts p pkg e :
  packages (replay acts (initial prob log)) !! p = Some pkg →
  package_status (replay acts (initial prob log)) !! p = Some e →
  ps_status e ≠ at_warehouse →
  pkg_arrival_time pkg ≤ completion_time (replay acts (initial prob log)).
Proof.
  intros Hpkg He Hst.
  destruct (replay_timed_inv prob log acts) as [_ Hrec].
  destruct (Hrec p pkg e Hpkg He) as (Harr & _). by apply Harr.
Qed.

Lemma no_package_leaves_before_it_arrives_witness :
  let s := replay Scenario.staging_log (initial Scenario.problem1 []) in
  let e := {| ps_status := at_package_point; ps_location := "P1";
              ps_arrival_time := 0; ps_delivery_time := None |} in
  packages s !! "PKG1" = Some (Package "PKG1" "W1" "D1" 0) ∧
  package_status s !! "PKG1" = Some e ∧
  ps_status e ≠ at_warehouse ∧
  pkg_arrival_time (Package "PKG1" "W1" "D1" 0) ≤ completion_time s.
Proof.
  cbv zeta.
  assert (packages (replay Scenario.staging_log (initial Scenario.problem1 []))
            !! "PKG1" = Some (Package "PKG1" "W1" "D1" 0)) as Hpkg
    by (vm_compute; reflexivity).
  assert (package_status
            (replay Scenario.staging_log (initial Scenario.problem1 []))
            !! "PKG1"
          = Some {| ps_status := at_package_point; ps_location := "P1";
                    ps_arrival_time := 0; ps_delivery_time := None |}) as He
    by (vm_compute; reflexivity).
  split; [exact Hpkg|]. split; [exact He|]. split; [discriminate|].
  apply (no_package_leaves_before_it_arrives Scenario.problem1 []
           Scenario.staging_log "PKG1" _ _ Hpkg He).
  discriminate.
Defined.

(** At every point of a replay, a package has a delivery time exactly when
    its status is [delivered]; it is then recorded at its declared
    destination, with a delivery time not after the completion time. *)
Theorem delivered_packages_are_at_their_destination prob log acts p pkg e :
  packages (replay acts (initial prob log)) !! p = Some pkg →
  package_status (replay acts (initial prob log)) !! p = Some e →
  (ps_status e = delivered ↔ is_Some (ps_delivery_time e)) ∧
  (ps_status e = delivered →
   ps_location e = pkg_destination pkg ∧
   ∃ t, ps_delivery_time e = Some t ∧
        t ≤ completion_time (replay acts (initial prob log))).
Proof.
  intros Hpkg He.
  destruct (replay_timed_inv prob log acts) as [_ Hrec].
  destruct (Hrec p pkg e Hpkg He) as (_ & Hdel & Hnone).
  split; [|done]. split.
  - intros Hst. destruct (Hdel Hst) as (_ & t & -> & _). by eexists.
  - intros [t Ht]. destruct (decide (ps_status e = delivered)) as [|Hst]; [done|].
    rewrite (Hnone Hst) in Ht. discriminate.
Qed.

Lemma delivered_packages_are_at_their_destination_witness :
  let s := replay Scenario.direct_log (initial Scenario.problem1 []) in
  let e := {| ps_status := delivered; ps_location := "D1";
              ps_arrival_time := 0; ps_delivery_time := Some 3 |} in
  packages s !! "PKG1" = Some (Package "PKG1" "W1" "D1" 0) ∧
  package_status s !! "PKG1" = Some e ∧
  (ps_status e = delivered ↔ is_Some (ps_delivery_time e)) ∧
  (ps_status e = delivered →
   ps_location e = pkg_destination (Package "PKG1" "W1" "D1" 0) ∧
   ∃ t, ps_delivery_time e = Some t ∧ t ≤ completion_time s).
Proof.
  cbv zeta.
  assert (packages (replay Scenario.direct_log (initial Scenario.problem1 []))
            !! "PKG1" = Some (Package "PKG1" "W1" "D1" 0)) as Hpkg
    by (vm_compute; reflexivity).
  assert (package_status
            (replay Scenario.direct_log (initial Scenario.problem1 []))
            !! "PKG1"
          = Some {| ps_status := delivered; ps_location := "D1";
                    ps_arrival_time := 0; ps_delivery_time := Some 3 |}) as He
    by (vm_compute; reflexivity).
  split; [exact Hpkg|]. split; [exact He|].
  exact (delivered_packages_are_at_their_destination Scenario.problem1 []
           Scenario.direct_log "PKG1" _ _ Hpkg He).
Defined.

(** ** Courier positions *)

(** One step to one of the eight neighbouring cells. *)
Definition king_step (a b : option coord) : Prop :=
  ∃ x y, a = Some x ∧ b = Some y ∧ chebyshev x y = 1.

(** Every courier that had a position entry in [s0] has one in [s], joined
    to the old one by a walk of single steps. *)
Definition walked (s0 s : state) : Prop :=
  ∀ cid pos, courier_positions s0 !! cid = Some pos →
    ∃ pos', courier_positions s !! cid = Some pos' ∧ rtc king_step pos pos'.

Lemma walked_refl s : walked s s.
Proof. intros cid pos H. by exists pos. Qed.

Lemma walked_pickup s0 s cid lid t ps :
  walked s0 s → is_Some (courier_packages s !! cid) →
  always (for_each ps (pickup_package cid lid t)) (walked s0) s.
Proof.
  intros Hs Hc. unfold always.
  eapply wp_mono; [apply (wp_for_each
    (λ _ s', walked s0 s' ∧ is_Some (courier_packages s' !! cid))
    (λ _, walked s0)); [|done]| |]; simpl; [|tauto|done].
  clear. intros p _ s (Hs & Hc). unfold wp.
  destruct (pickup_package_outcome cid lid t p s Hc)
    as [msg|e|pkg e l Hpkg He Horig Hst Harr Hl]; [done..|].
  split; [done|]. simpl. rewrite lookup_insert_eq. eauto.
Qed.

Lemma walked_dropoff s0 s cid lid ps :
  walked s0 s → is_Some (package_point_contents s !! lid) →
  always (for_each ps (dropoff_package cid lid)) (walked s0) s.
Proof.
  intros Hs Hc. unfold always.
  eapply wp_mono; [apply (wp_for_each
    (λ _ s', walked s0 s' ∧ is_Some (package_point_contents s' !! lid))
    (λ _, walked s0)); [|done]| |]; simpl; [|tauto|done].
  clear. intros p _ s (Hs & Hc). unfold wp.
  destruct (dropoff_package_outcome cid lid p s Hc)
    as [msg|e|e l l' c Hl Hp Hl' He Hcont]; [done..|].
  split; [done|]. simpl. rewrite lookup_insert_eq. eauto.
Qed.

Lemma walked_deliver s0 s cid lid t ps :
  walked s0 s → always (for_each ps (deliver_package cid lid t)) (walked s0) s.
Proof.
  intros Hs. unfold always.
  eapply wp_mono; [apply (wp_for_each (λ _, walked s0) (λ _, walked s0));
    [|done]| |]; simpl; [|done..].
  clear. intros p _ s Hs. unfold wp.
  by destruct (deliver_package_outcome cid lid t p s).
Qed.

Lemma walked_move s0 s cid from_pos to_pos :
  walked s0 s → courier_positions s !! cid = Some (Some from_pos) →
  _is_valid_move from_pos to_pos = true →
  walked s0 (moved cid to_pos s).
Proof.
  intros Hs Hat Hstep cid2 pos Hpos. apply _is_valid_move_chebyshev in Hstep.
  simpl.
  destruct (Hs cid2 pos Hpos) as (pos' & Hpos' & Hwalk).
  destruct (decide (cid = cid2)) as [<-|Hne].
  - rewrite lookup_insert_eq. eexists. split; [done|].
    eapply rtc_r; [done|]. simplify_eq. by exists from_pos, to_pos.
  - rewrite lookup_insert_ne by done. eauto.
Qed.

(** Never a teleport: after any replay, the position of a courier is joined
    to the position it had before by a walk of single steps to neighbouring
    cells; in particular a courier without a position (its start location is
    not a location of the problem) never gets one. *)
Theorem couriers_only_walk acts s cid pos :
  courier_positions s !! cid = Some pos →
  ∃ pos', courier_positions (replay acts s) !! cid = Some pos' ∧
          rtc king_step pos pos' ∧
          (pos = None → pos' = None).
Proof.
  intros Hpos.
  assert (walked s (replay acts s)) as Hwalk.
  { apply (replay_invariant (walked s)).
    - done.
    - done.
    - apply walked_move.
    - intros. by apply walked_pickup.
    - apply walked_dropoff.
    - intros. by apply walked_deliver.
    - apply walked_refl. }
  destruct (Hwalk cid pos Hpos) as (pos' & Hpos' & Hpath).
  exists pos'. split; [done|]. split; [done|]. intros ->.
  apply rtc_inv in Hpath as [?|(mid & (x & _ & ? & _) & _)]; [done|discriminate].
Qed.

Lemma couriers_only_walk_witness :
  let prob := {| map_dimensions := (3, 1);
                 map_locations := [Scenario.W1];
                 in_couriers := [Courier "C1" "nowhere" 1];
                 in_packages := [] |} in
  courier_positions (initial prob []) !! "C1" = Some None ∧
  ∃ pos', courier_positions
            (replay [Scenario.move 0 "C1" (0, 0) (1, 0) []] (initial prob []))
            !! "C1" = Some pos' ∧
          rtc king_step None pos' ∧
          ((None : option coord) = None → pos' = None).
Proof.
  cbv zeta. split; [vm_compute; reflexivity|].
  apply (couriers_only_walk [Scenario.move 0 "C1" (0, 0) (1, 0) []]
           (initial {| map_dimensions := (3, 1);
                       map_locations := [Scenario.W1];
                       in_couriers := [Courier "C1" "nowhere" 1];
                       in_packages := [] |} []) "C1" None).
  vm_compute; reflexivity.
Defined.

(** ** Pick-ups beyond the courier's capacity *)

Lemma process_action_pick_up a s t cid :
  a_time a = Some t → a_courier a = Some cid → a_action a = Some "pick_up" →
  cid ∈ dom (couriers s) →
  process_action a s = _process_pickup a t (tick t s).
Proof.
  intros Ht Hc Ha Hknown. unfold process_action. munfold.
  rewrite Ht, Hc, Ha. rewrite <- (tick_couriers t s) in Hknown. unfold tick in *.
  destruct (t >? completion_time s); simpl;
    by rewrite decide_False by (by intros []).
Qed.

(** The pick-up handler on a batch too large for the courier: it rejects
    with one message, or raises, and leaves the state as it found it.  When
    the courier stands at a warehouse it does not raise, and the message is
    the capacity one. *)
Lemma _process_pickup_over_capacity a t s cid c cur :
  a_courier a = Some cid →
  couriers s !! cid = Some c → courier_packages s !! cid = Some cur →
  courier_capacity c < Z.of_nat (length cur) + Z.of_nat (length (get_packages a)) →
  wp (_process_pickup a t)
    (λ _ s', ∃ msg, s' = rejected msg s ∧
       (∀ lid d pos loc, a_location a = Some lid → input_data s = Some d →
          find_coordinates (map_locations d) lid = Some pos →
          courier_positions s !! cid = Some (Some pos) →
          locations s !! lid = Some loc → loc_type loc = "warehouse" →
          msg = ExceedingCourierCapacity cid))
    (λ _ s', s' = s ∧
       (∀ lid d pos loc, a_location a = Some lid → input_data s = Some d →
          find_coordinates (map_locations d) lid = Some pos →
          courier_positions s !! cid = Some (Some pos) →
          locations s !! lid = Some loc → loc_type loc = "warehouse" →
          False)) s.
Proof.
  intros Hc Hcour Hcur Hover. unfold _process_pickup.
  wp_steps; simplify_eq;
    try (match goal with
         | H : (_ >? _) = false |- _ => apply gtb_false in H; lia
         end);
    try (split; [done|]; intros ???? ??????; by simplify_eq);
    try (eexists; split; [done|]; intros ???? ??????; by simplify_eq).
Qed.

(** A pick_up record of a known courier whose batch, added to what the
    courier carries, exceeds the courier's capacity costs exactly one error
    and 10 penalty units and picks nothing up, not even the packages that
    would fit.  When the courier stands at the warehouse, the error is the
    capacity one. *)
Theorem pickup_over_capacity_is_rejected a s t cid c cur :
  a_time a = Some t → a_courier a = Some cid → a_action a = Some "pick_up" →
  couriers s !! cid = Some c → courier_packages s !! cid = Some cur →
  courier_capacity c < Z.of_nat (length cur) + Z.of_nat (length (get_packages a)) →
  ∃ msg s',
    try_action a s = Return tt s' ∧
    errors s' = (errors s ++ [msg])%list ∧
    invalid_action_penalty s' = invalid_action_penalty s + 10 ∧
    courier_packages s' = courier_packages s ∧
    package_status s' = package_status s ∧
    (∀ lid d pos loc, a_location a = Some lid → input_data s = Some d →
       find_coordinates (map_locations d) lid = Some pos →
       courier_positions s !! cid = Some (Some pos) →
       locations s !! lid = Some loc → loc_type loc = "warehouse" →
       msg = ExceedingCourierCapacity cid).
Proof.
  intros Ht Hc Ha Hcour Hcur Hover.
  assert (cid ∈ dom (couriers s)) as Hknown by (apply elem_of_dom; eauto).
  destruct (tick_frame t s) as (He & Hp & Hcp & Hpos & Hpc & Hps & Hd & Hlocs & Hin).
  pose proof (_process_pickup_over_capacity a t (tick t s) cid c cur) as H.
  rewrite Hlocs, Hcp, Hin, Hpos, tick_couriers in H.
  specialize (H Hc Hcour Hcur Hover).
  unfold wp in H. unfold try_action.
  rewrite (process_action_pick_up a s t cid) by done.
  destruct (_process_pickup a t (tick t s)) as [[] s'|e s'].
  - destruct H as (msg & -> & Hmsg).
    exists msg, (rejected msg (tick t s)). simpl.
    rewrite He, Hp, Hcp, Hps. split_and!; try done.
  - destruct H as [-> Hnot].
    assert (∀ msg, ∃ msg' s',
      reject msg (tick t s) = Return tt s' ∧
      errors s' = (errors s ++ [msg'])%list ∧
      invalid_action_penalty s' = invalid_action_penalty s + 10 ∧
      courier_packages s' = courier_packages s ∧
      package_status s' = package_status s ∧
      (∀ lid d pos loc, a_location a = Some lid → input_data s = Some d →
         find_coordinates (map_locations d) lid = Some pos →
         courier_positions s !! cid = Some (Some pos) →
         locations s !! lid = Some loc → loc_type loc = "warehouse" →
         msg' = ExceedingCourierCapacity cid)) as Hrej.
    { intros msg. exists msg, (rejected msg (tick t s)). simpl.
      rewrite He, Hp, Hcp, Hps. split_and!; try done.
      intros lid d pos loc ??????. by destruct (Hnot lid d pos loc). }
    destruct e; apply Hrej.
Qed.

Lemma pickup_over_capacity_is_rejected_witness :
  let s := initial Scenario.problem2 [] in
  let a := Scenario.pick_up 0 "C1" "W1" ["PKG1"; "PKG2"] in
  couriers s !! "C1" = Some (Courier "C1" "W1" 1) ∧
  courier_packages s !! "C1" = Some [] ∧
  1 < Z.of_nat (length (@nil string)) + Z.of_nat (length (get_packages a)) ∧
  ∃ msg s',
    try_action a s = Return tt s' ∧
    errors s' = (errors s ++ [msg])%list ∧
    invalid_action_penalty s' = invalid_action_penalty s + 10 ∧
    courier_packages s' = courier_packages s ∧
    package_status s' = package_status s ∧
    (∀ lid d pos loc, a_location a = Some lid → input_data s = Some d →
       find_coordinates (map_locations d) lid = Some pos →
       courier_positions s !! "C1" = Some (Some pos) →
       locations s !! lid = Some loc → loc_type loc = "warehouse" →
       msg = ExceedingCourierCapacity "C1").
Proof.
  cbv zeta.
  assert (couriers (initial Scenario.problem2 []) !! "C1"
          = Some (Courier "C1" "W1" 1)) as Hcour by (vm_compute; reflexivity).
  assert (courier_packages (initial Scenario.problem2 []) !! "C1" = Some [])
    as Hcur by (vm_compute; reflexivity).
  split; [exact Hcour|]. split; [exact Hcur|]. split; [simpl; lia|].
  apply (pickup_over_capacity_is_rejected
           (Scenario.pick_up 0 "C1" "W1" ["PKG1"; "PKG2"]) _ 0 "C1"
           (Courier "C1" "W1" 1) []);
    first [reflexivity|assumption|simpl; lia].
Defined.

(** ** The tables [initialize_tracking] builds *)

(** The last element of [l] whose key is [k]: what a dictionary filled by
    [d[key(x)] = x] over [l] holds under [k]. *)
Definition last_with {A} (key : A → string) (k : string) (l : list A) : option A :=
  last (filter (λ x, key x = k) l).

Lemma last_with_snoc {A} (key : A → string) k l x :
  last_with key k (l ++ [x])
  = if decide (key x = k) then Some x else last_with key k l.
Proof.
  unfold last_with. rewrite filter_app, filter_cons, filter_nil.
  case_decide; [apply last_snoc|by rewrite app_nil_r].
Qed.

(** The coordinates a courier starts at. *)
Definition start_of (prob : problem) (c : courier) : option coord :=
  find_coordinates (map_locations prob) (courier_start_location c).

(** The status entry a package starts with. *)
Definition entry_of (pkg : package) : pkg_state :=
  {| ps_status := at_warehouse; ps_location := pkg_origin pkg;
     ps_arrival_time := pkg_arrival_time pkg; ps_delivery_time := None |}.

(** [lid] names a package point among [dl]. *)
Definition names_package_point (lid : string) (dl : list location) : Prop :=
  Exists (λ loc, loc_id loc = lid ∧ loc_type loc = "package_point") dl.

(** The tracking tables after the loops of [initialize_tracking] have
    visited the locations [dl], the couriers [dc] and the packages [dp]. *)
Record built (prob : problem) (dl : list location) (dc : list courier)
    (dp : list package) (s : state) : Prop := {
  built_input : input_data s = Some prob;
  built_locations : ∀ lid, locations s !! lid = last_with loc_id lid dl;
  built_contents : ∀ lid,
    package_point_contents s !! lid
    = if decide (names_package_point lid dl) then Some [] else None;
  built_couriers : ∀ cid, couriers s !! cid = last_with courier_id cid dc;
  built_positions : ∀ cid,
    courier_positions s !! cid = start_of prob <$> last_with courier_id cid dc;
  built_carried : ∀ cid,
    courier_packages s !! cid = (λ _, []) <$> last_with courier_id cid dc;
  built_packages : ∀ p, packages s !! p = last_with pkg_id p dp;
  built_status : ∀ p,
    package_status s !! p = entry_of <$> last_with pkg_id p dp
}.

Lemma loaded_built prob log : built prob [] [] [] (loaded prob log).
Proof. by split. Qed.

Lemma names_package_point_snoc lid dl x :
  names_package_point lid (dl ++ [x])
  ↔ names_package_point lid dl ∨ (loc_id x = lid ∧ loc_type x = "package_point").
Proof.
  unfold names_package_point. rewrite Exists_app, Exists_cons, Exists_nil. tauto.
Qed.

Lemma locations_loop_built prob locs dl s :
  built prob dl [] [] s →
  wp (for_each locs (λ location,
        modify (λ s, set_locations (<[loc_id location := location]> (locations s)) s);;
        if decide (loc_type location = "package_point")
        then modify (λ s, set_package_point_contents
                            (<[loc_id location := []]> (package_point_contents s)) s)
        else pass))
     (λ _, built prob (dl ++ locs) [] []) (λ _ _, False) s.
Proof.
  intros Hs.
  eapply wp_mono; [apply (wp_for_each
    (λ rest s', ∃ dl', (dl ++ locs = dl' ++ rest)%list ∧ built prob dl' [] [] s')
    (λ _ _, False)); [|by exists dl]| |]; simpl; [| |done].
  - clear. intros x rest s (dl' & Heq & []).
    assert (∀ lid (m : gmap string location),
      (∀ l, m !! l = last_with loc_id l dl') →
      <[loc_id x := x]> m !! lid = last_with loc_id lid (dl' ++ [x])) as Hloc.
    { intros lid m Hm. rewrite lookup_insert, last_with_snoc.
      by case_decide. }
    wp_steps; (exists (dl' ++ [x])%list; split;
      [by rewrite <- app_assoc|]); split; simpl; try done;
      try (intros lid; by apply Hloc).
    + intros lid. rewrite lookup_insert, built_contents0.
      repeat case_decide; try done;
        rewrite names_package_point_snoc in *; subst; tauto.
    + intros lid. rewrite built_contents0.
      repeat case_decide; try done;
        rewrite names_package_point_snoc in *; tauto.
  - intros _ s' (dl' & Heq & H). rewrite app_nil_r in Heq. by subst.
Qed.

Lemma couriers_loop_built prob dl cs dc s :
  built prob dl dc [] s →
  wp (for_each cs (λ courier,
        let courier_id := courier_id courier in
        modify (λ s, set_couriers (<[courier_id := courier]> (couriers s)) s);;
        let start_loc := courier_start_location courier in
        start_coords ← _get_location_coordinates start_loc;
        modify (λ s, set_courier_positions
                       (<[courier_id := start_coords]> (courier_positions s)) s);;
        modify (λ s, set_courier_packages
                       (<[courier_id := []]> (courier_packages s)) s)))
     (λ _, built prob dl (dc ++ cs) []) (λ _ _, False) s.
Proof.
  intros Hs.
  eapply wp_mono; [apply (wp_for_each
    (λ rest s', ∃ dc', (dc ++ cs = dc' ++ rest)%list ∧ built prob dl dc' [] s')
    (λ _ _, False)); [|by exists dc]| |]; simpl; [| |done].
  - clear. intros x rest s (dc' & Heq & []).
    wp_steps; simpl in *; [|congruence].
    exists (dc' ++ [x])%list. split; [by rewrite <- app_assoc|].
    simplify_eq. split; simpl; try done; intros cid;
      rewrite lookup_insert, last_with_snoc; by case_decide.
  - intros _ s' (dc' & Heq & H). rewrite app_nil_r in Heq. by subst.
Qed.

Lemma packages_loop_built prob dl dc ps dp s :
  built prob dl dc dp s →
  wp (for_each ps (λ package,
        let package_id := pkg_id package in
        modify (λ s, set_packages (<[package_id := package]> (packages s)) s);;
        modify (λ s, set_package_status
                       (<[package_id := {| ps_status := at_warehouse;
                                           ps_location := pkg_origin package;
                                           ps_arrival_time := pkg_arrival_time package;
                                           ps_delivery_time := None |}]>
                          (package_status s)) s)))
     (λ _, built prob dl dc (dp ++ ps)) (λ _ _, False) s.
Proof.
  intros Hs.
  eapply wp_mono; [apply (wp_for_each
    (λ rest s', ∃ dp', (dp ++ ps = dp' ++ rest)%list ∧ built prob dl dc dp' s')
    (λ _ _, False)); [|by exists dp]| |]; simpl; [| |done].
  - clear. intros x rest s (dp' & Heq & []).
    wp_steps. exists (dp' ++ [x])%list. split; [by rewrite <- app_assoc|].
    split; simpl; try done; intros p;
      rewrite lookup_insert, last_with_snoc; by case_decide.
  - intros _ s' (dp' & Heq & H). rewrite app_nil_r in Heq. by subst.
Qed.

Lemma initial_built prob log :
  built prob (map_locations prob) (in_couriers prob) (in_packages prob)
    (initial prob log).
Proof.
  assert (wp initialize_tracking
            (λ _, built prob (map_locations prob) (in_couriers prob) (in_packages prob))
            (λ _ _, False) (loaded prob log)) as H.
  { unfold initialize_tracking. wp_step. wp_step. wp_step. simpl. wp_step.
    wp_step.
    eapply wp_mono;
      [by apply (locations_loop_built prob (map_locations prob) []), loaded_built
      | |done].
    intros u1 s1 H1. simpl in *. wp_step.
    eapply wp_mono;
      [by apply (couriers_loop_built prob (map_locations prob)
                   (in_couriers prob) [])| |done].
    intros u2 s2 H2. simpl in *.
    by apply (packages_loop_built prob (map_locations prob) (in_couriers prob)
                (in_packages prob) []). }
  unfold wp in H. unfold initial, exec. by destruct (initialize_tracking _).
Qed.

(** What [initialize_tracking] leaves in the tables, for any problem, also
    one that declares an id twice: under each id the tables hold the last
    location, courier and package declared with it; a courier starts at the
    coordinates of the first location that has the id of its start location
    (at no position when there is none), with an empty list; a package
    starts [at_warehouse], held by its origin; a location id has a contents
    list, empty, exactly when some location declared with it is a package
    point. *)
Theorem initial_tables prob log :
  (∀ lid, locations (initial prob log) !! lid
          = last_with loc_id lid (map_locations prob)) ∧
  (∀ lid, package_point_contents (initial prob log) !! lid
          = if decide (names_package_point lid (map_locations prob))
            then Some [] else None) ∧
  (∀ cid, couriers (initial prob log) !! cid
          = last_with courier_id cid (in_couriers prob)) ∧
  (∀ cid, courier_positions (initial prob log) !! cid
          = start_of prob <$> last_with courier_id cid (in_couriers prob)) ∧
  (∀ cid, courier_packages (initial prob log) !! cid
          = (λ _, []) <$> last_with courier_id cid (in_couriers prob)) ∧
  (∀ p, packages (initial prob log) !! p
        = last_with pkg_id p (in_packages prob)) ∧
  (∀ p, package_status (initial prob log) !! p
        = entry_of <$> last_with pkg_id p (in_packages prob)).
Proof. destruct (initial_built prob log). by split_and!. Qed.

(** ** Looking locations up *)

Lemma find_coordinates_head locs lid :
  find_coordinates locs lid
  = loc_coordinates <$> head (filter (λ loc, loc_id loc = lid) locs).
Proof.
  induction locs as [|loc locs IH]; [done|]. simpl.
  rewrite filter_cons. by case_decide.
Qed.

Lemma find_coordinates_None locs lid :
  find_coordinates locs lid = None ↔ lid ∉ loc_id <$> locs.
Proof.
  induction locs as [|loc locs IH].
  - split; [intros _; apply not_elem_of_nil|done].
  - rewrite fmap_cons, not_elem_of_cons. simpl.
    case_decide as Hid; [|rewrite IH].
    + split; [done|]. intros [Hne _]. by destruct Hne.
    + split; [by split|by intros [_ ?]].
Qed.

Lemma filter_unique {A} (key : A → string) k (l : list A) :
  NoDup (key <$> l) → (length (filter (λ x, key x = k) l) ≤ 1)%nat.
Proof.
  induction l as [|x l IH]; [simpl; lia|].
  rewrite fmap_cons, NoDup_cons. intros [Hx Hnd]. rewrite filter_cons.
  case_decide as Hk; [|by apply IH]. simpl.
  assert (filter (λ y, key y = k) l = []) as ->; [|simpl; lia].
  apply elem_of_nil_inv. intros y [Hy Hin]%list_elem_of_filter.
  apply Hx. rewrite Hk, <- Hy. by apply list_elem_of_fmap_2.
Qed.

(** When the problem declares every location id once, the location the
    handlers take the kind and capacity from and the coordinates they
    compare the courier's position with belong to the same declaration. *)
Theorem unique_location_ids_agree prob log lid loc :
  NoDup (loc_id <$> map_locations prob) →
  locations (initial prob log) !! lid = Some loc →
  loc ∈ map_locations prob ∧ loc_id loc = lid ∧
  find_coordinates (map_locations prob) lid = Some (loc_coordinates loc).
Proof.
  intros Hnd Hloc.
  rewrite (built_locations _ _ _ _ _ (initial_built prob log)) in Hloc.
  unfold last_with in Hloc. rewrite find_coordinates_head.
  pose proof (filter_unique loc_id lid _ Hnd) as Hlen.
  destruct (filter (λ l, loc_id l = lid) (map_locations prob))
    as [|x [|y rest]] eqn:Hf; simpl in *; [done| |lia].
  injection Hloc as ->.
  assert (loc ∈ filter (λ l, loc_id l = lid) (map_locations prob)) as Hin
    by (rewrite Hf; left).
  apply list_elem_of_filter in Hin as [? ?]. done.
Qed.

Lemma unique_location_ids_agree_witness :
  NoDup (loc_id <$> map_locations Scenario.problem1) ∧
  locations (initial Scenario.problem1 []) !! "P1" = Some Scenario.P1 ∧
  Scenario.P1 ∈ map_locations Scenario.problem1 ∧ loc_id Scenario.P1 = "P1" ∧
  find_coordinates (map_locations Scenario.problem1) "P1"
  = Some (loc_coordinates Scenario.P1).
Proof.
  assert (NoDup (loc_id <$> map_locations Scenario.problem1)) as Hnd.
  { simpl. repeat (apply NoDup_cons; split;
      [rewrite ?not_elem_of_cons; split_and?; try discriminate;
       apply not_elem_of_nil|]).
    apply NoDup_nil_2. }
  assert (locations (initial Scenario.problem1 []) !! "P1" = Some Scenario.P1)
    as Hloc by (vm_compute; reflexivity).
  split; [exact Hnd|]. split; [exact Hloc|].
  exact (unique_location_ids_agree Scenario.problem1 [] "P1" Scenario.P1 Hnd Hloc).
Defined.

(** With an id declared twice the two can differ: the kind is the last
    declaration's, the coordinates are the first's. *)
Example duplicate_location_ids_disagree :
  let prob := {| map_dimensions := (3, 1);
                 map_locations := [Location "L" "warehouse" (0, 0) None;
                                   Location "L" "destination" (2, 0) None];
                 in_couriers := []; in_packages := [] |} in
  loc_type <$> locations (initial prob []) !! "L" = Some "destination" ∧
  find_coordinates (map_locations prob) "L" = Some (0, 0).
Proof. split; vm_compute; reflexivity. Qed.

Lemma process_action_deliver a s t cid :
  a_time a = Some t → a_courier a = Some cid → a_action a = Some "deliver" →
  cid ∈ dom (couriers s) →
  process_action a s = _process_deliver a t (tick t s).
Proof.
  intros Ht Hc Ha Hknown. unfold process_action. munfold.
  rewrite Ht, Hc, Ha. rewrite <- (tick_couriers t s) in Hknown. unfold tick in *.
  destruct (t >? completion_time s); simpl;
    by rewrite decide_False by (by intros []).
Qed.

Lemma handlers_unknown_location a t s cid lid pos d :
  a_courier a = Some cid → a_location a = Some lid →
  courier_positions s !! cid = Some pos → input_data s = Some d →
  find_coordinates (map_locations d) lid = None →
  _process_pickup a t s = Return tt (rejected (InvalidLocationID lid) s) ∧
  _process_dropoff a t s = Return tt (rejected (InvalidLocationID lid) s) ∧
  _process_deliver a t s = Return tt (rejected (InvalidLocationID lid) s).
Proof.
  intros Hc Hl Hpos Hd Hfind.
  unfold _process_pickup, _process_dropoff, _process_deliver,
    _get_location_coordinates.
  munfold. by rewrite Hc, Hl, Hpos, Hd, Hfind.
Qed.

(** A pick_up, drop_off or deliver record of a known courier that names a
    location id the problem does not declare costs one error, the
    location one, and touches nothing else. *)
Theorem unknown_location_is_rejected a s t cid ty lid pos d :
  a_time a = Some t → a_courier a = Some cid → a_action a = Some ty →
  ty ∈ ["pick_up"; "drop_off"; "deliver"] →
  a_location a = Some lid → cid ∈ dom (couriers s) →
  courier_positions s !! cid = Some pos → input_data s = Some d →
  lid ∉ loc_id <$> map_locations d →
  try_action a s = Return tt (rejected (InvalidLocationID lid) (tick t s)).
Proof.
  intros Ht Hc Ha Hty Hl Hknown Hpos Hd Hlid.
  apply find_coordinates_None in Hlid.
  destruct (tick_frame t s) as (_ & _ & _ & Hpos' & _ & _ & _ & _ & Hin).
  destruct (handlers_unknown_location a t (tick t s) cid lid pos d)
    as (Hpick & Hdrop & Hdel); [done|done|by rewrite Hpos'|by rewrite Hin|done|].
  unfold try_action.
  rewrite !elem_of_cons in Hty.
  destruct Hty as [->|[->|[->|Hnil]]]; [| | |by apply elem_of_nil in Hnil].
  - by rewrite (process_action_pick_up a s t cid), Hpick.
  - by rewrite (process_action_drop_off a s t cid), Hdrop.
  - by rewrite (process_action_deliver a s t cid), Hdel.
Qed.

Lemma unknown_location_is_rejected_witness :
  let s := initial Scenario.problem1 [] in
  let a := Scenario.deliver 5 "C1" "D9" ["PKG1"] in
  ("deliver" ∈ ["pick_up"; "drop_off"; "deliver"]) ∧
  ("C1" ∈ dom (couriers s)) ∧
  courier_positions s !! "C1" = Some (Some (0, 0)) ∧
  input_data s = Some Scenario.problem1 ∧
  ("D9" ∉ loc_id <$> map_locations Scenario.problem1) ∧
  try_action a s = Return tt (rejected (InvalidLocationID "D9") (tick 5 s)).
Proof.
  cbv zeta.
  assert ("deliver" ∈ ["pick_up"; "drop_off"; "deliver"]) as Hty
    by (rewrite !elem_of_cons; auto).
  assert ("C1" ∈ dom (couriers (initial Scenario.problem1 []))) as Hknown
    by (apply elem_of_dom; vm_compute; eauto).
  assert (courier_positions (initial Scenario.problem1 []) !! "C1"
          = Some (Some (0, 0))) as Hpos by (vm_compute; reflexivity).
  assert (input_data (initial Scenario.problem1 []) = Some Scenario.problem1)
    as Hd by (vm_compute; reflexivity).
  assert ("D9" ∉ loc_id <$> map_locations Scenario.problem1) as Hlid
    by (simpl; rewrite !not_elem_of_cons; split_and!; try discriminate;
        apply not_elem_of_nil).
  split_and!; try assumption.
  exact (unknown_location_is_rejected (Scenario.deliver 5 "C1" "D9" ["PKG1"])
           _ 5 "C1" "deliver" "D9" _ _ eq_refl eq_refl eq_refl Hty eq_refl
           Hknown Hpos Hd Hlid).
Defined.

(** ** Missing handler keys *)

(** The first key a handler subscripts that the record lacks. *)
Definition missing_handler_key (ty : string) (a : action) : option string :=
  if decide (ty ∈ ["pick_up"; "drop_off"; "deliver"]) then
    match a_location a with None => Some "location" | Some _ => None end
  else if decide (ty = "move") then
    match a_from a, a_to a with
    | None, _ => Some "from"
    | Some _, None => Some "to"
    | Some _, Some _ => None
    end
  else None.

Lemma handlers_missing_location a t s cid :
  a_courier a = Some cid → a_location a = None →
  _process_pickup a t s = Raise (KeyError "location") s ∧
  _process_dropoff a t s = Raise (KeyError "location") s ∧
  _process_deliver a t s = Raise (KeyError "location") s.
Proof.
  intros Hc Hl. unfold _process_pickup, _process_dropoff, _process_deliver.
  munfold. by rewrite Hc, Hl.
Qed.

(** A record of a known courier that lacks a key its handler subscripts
    ("location" for pick_up, drop_off and deliver; "from", then "to", for
    move) costs one error naming the key, after the clock has been advanced
    to its time; the key "packages" is never missed, it defaults to the
    empty list. *)
Theorem missing_handler_key_is_penalized a s t cid ty k :
  a_time a = Some t → a_courier a = Some cid → a_action a = Some ty →
  cid ∈ dom (couriers s) →
  missing_handler_key ty a = Some k →
  try_action a s = Return tt (rejected (MissingRequiredField k) (tick t s)).
Proof.
  intros Ht Hc Ha Hknown Hk. unfold missing_handler_key in Hk.
  unfold try_action. case_decide as Hty.
  - destruct (a_location a) eqn:Hl; [done|]. injection Hk as <-.
    destruct (handlers_missing_location a t (tick t s) cid Hc Hl)
      as (Hpick & Hdrop & Hdel).
    rewrite !elem_of_cons in Hty.
    destruct Hty as [->|[->|[->|Hnil]]]; [| | |by apply elem_of_nil in Hnil].
    + by rewrite (process_action_pick_up a s t cid), Hpick.
    + by rewrite (process_action_drop_off a s t cid), Hdrop.
    + by rewrite (process_action_deliver a s t cid), Hdel.
  - case_decide as Hmove; [subst ty|done].
    rewrite (process_action_move a s t cid) by done.
    unfold _process_move. munfold. rewrite Hc.
    destruct (a_from a) as [f|]; [|by injection Hk as <-].
    destruct (a_to a) as [to|]; [done|by injection Hk as <-].
Qed.

Lemma missing_handler_key_is_penalized_witness :
  let s := initial Scenario.problem1 [] in
  let a := Action (Some 6) (Some "C1") (Some "move") None (Some (0, 0)) None None in
  ("C1" ∈ dom (couriers s)) ∧
  missing_handler_key "move" a = Some "to" ∧
  try_action a s = Return tt (rejected (MissingRequiredField "to") (tick 6 s)).
Proof.
  cbv zeta.
  assert ("C1" ∈ dom (couriers (initial Scenario.problem1 []))) as Hknown
    by (apply elem_of_dom; vm_compute; eauto).
  split; [exact Hknown|]. split; [vm_compute; reflexivity|].
  apply (missing_handler_key_is_penalized
           (Action (Some 6) (Some "C1") (Some "move") None (Some (0, 0)) None None)
           (initial Scenario.problem1 []) 6 "C1" "move" "to"
           eq_refl eq_refl eq_refl Hknown).
  vm_compute; reflexivity.
Defined.

(** ** What a replay never undoes *)

Lemma effect_monotone s s' :
  effect s s' →
  errors s `prefix_of` errors s' ∧ delivered_packages s ⊆ delivered_packages s'.
Proof.
  destruct 1; simpl; split; try done.
  - by apply prefix_app_r.
  - apply union_subseteq_r.
Qed.

Lemma step_monotone s s' :
  step s s' →
  errors s `prefix_of` errors s' ∧ delivered_packages s ⊆ delivered_packages s'.
Proof. intros [s2 Heff|t _]; [by apply effect_monotone|done]. Qed.

(** A replay only adds: the error list it leaves extends the one it found,
    no package leaves the delivered set, and neither the completion time nor
    the invalid-action penalty goes down. *)
Theorem replay_only_adds acts s :
  errors s `prefix_of` errors (replay acts s) ∧
  delivered_packages s ⊆ delivered_packages (replay acts s) ∧
  completion_time s ≤ completion_time (replay acts s) ∧
  invalid_action_penalty s ≤ invalid_action_penalty (replay acts s).
Proof.
  assert (errors s `prefix_of` errors (replay acts s) ∧
          delivered_packages s ⊆ delivered_packages (replay acts s)) as [He Hd].
  { pose proof (replay_steps acts s) as H.
    induction H as [|s1 s2 s3 H12 _ IH]; [done|].
    destruct (step_monotone _ _ H12) as [He Hd]. destruct IH as [He' Hd'].
    split; by etrans. }
  split_and!; [done|done| |apply replay_penalty_mono].
  clear. revert s. induction acts as [|a acts IH]; intros s; [done|].
  rewrite replay_cons. etrans; [|apply IH].
  rewrite try_action_completion_time. unfold clock_of. repeat case_match; lia.
Qed.


(** ** The exit code *)

(** The script exits with 0 exactly when it has printed a report whose
    error list is empty, and with 1 otherwise: after a load failure, after
    an uncaught exception, and whenever an error was recorded. *)
Theorem exit_code_reflects_errors order input_file output_file :
  (exit_code (main order input_file output_file) = 0
   ↔ ∃ r, stdout (main order input_file output_file) = Some r ∧ r_errors r = []) ∧
  (exit_code (main order input_file output_file) = 0
   ∨ exit_code (main order input_file output_file) = 1).
Proof.
  destruct input_file as [reason|prob].
  { split; [|by right]. split; [done|]. by intros (r & [= <-] & ?). }
  destruct output_file as [reason|log].
  { split; [|by right]. split; [done|]. by intros (r & [= <-] & ?). }
  rewrite main_eq. destruct (sort_log log) as [acts|].
  - cbv zeta. simpl. case_bool_decide as Hlen; simpl.
    + apply length_zero_iff_nil in Hlen. split; [|by left].
      split; [|done]. intros _. by eexists.
    + split; [|by right]. split; [done|].
      intros (r & [= <-] & Hnil). simpl in Hnil. by rewrite Hnil in Hlen.
  - split; [|by right]. split; [done|]. by intros (r & ? & _).
Qed.
